(** * head_to_head_sorter: an interactive merge sort

    A shallow embedding of [head_to_head_sorter.py].  The script sorts the
    lines of a text file by merge sort, asking the person at the keyboard to
    settle every comparison with the arrow keys ([q] quits).

    What the script touches outside its own variables is kept in an explicit
    [World]: the keystrokes still to be read by [term.inkey()], what has been
    written to standard output, the lines typed at [input()], the files
    written, and the state of the [random] module.  A computation is a
    function from a world to an [Outcome]: a returned value, a raised
    exception ([SystemExit] from [sys.exit()], [RecursionError] when the
    interpreter's recursion limit is reached), or a wait for a key that never
    comes. *)

From Stdlib Require Import String Ascii Arith ZArith Bool Lia List.
From Stdlib Require Import Permutation Sorted DecimalString.
Import ListNotations.

Set Warnings "-notation-for-abbreviation".

Local Open Scope string_scope.
Local Open Scope nat_scope.
Local Open Scope list_scope.

(** ** Data *)

(** An item is one line of the input file. *)
Definition Item : Type := string.

(** A [blessed] keystroke: a [str] with a [name] attribute, which is [None]
    for a printable key and e.g. ['KEY_LEFT'] for an application key. *)
Record Keystroke : Type := mkKey { text : string; name : option string }.

(** [key.name == s] *)
Definition name_is (key : Keystroke) (s : string) : bool :=
  match name key with
  | Some n => (n =? s)%string
  | None => false
  end.

(** [str.lower()], on ASCII text. *)
Definition lower_ascii (c : ascii) : ascii :=
  let n := nat_of_ascii c in
  if (65 <=? n) && (n <=? 90) then ascii_of_nat (n + 32) else c.

Fixpoint lower (s : string) : string :=
  match s with
  | EmptyString => EmptyString
  | String c s' => String (lower_ascii c) (lower s')
  end.

(** The line terminator written by [print]. *)
Definition newline : string := String (ascii_of_nat 10) EmptyString.

(** [f'{n}'] for a natural number. *)
Definition decimal (n : nat) : string := NilEmpty.string_of_uint (Nat.to_uint n).

(** [f"{i} vs {j} (←/→/q): "] *)
Definition prompt_text (i j : Item) : string :=
  (i ++ " vs " ++ j ++ " (←/→/q): ")%string.

(** The exceptions the script can raise. *)
Inductive Exception : Type :=
| SystemExit (code : option Z)
| RecursionError.

(** ** Decision sources *)

(** What a keystroke means to [input_handler], read off the order of its
    [if]/[elif] branches. *)
Inductive Signal : Type := PreferLeft | PreferRight | Cancel | Ignored.

Definition signal (key : Keystroke) : Signal :=
  if name_is key "KEY_LEFT" then PreferLeft
  else if name_is key "KEY_RIGHT" then PreferRight
  else if (lower (text key) =? "q")%string then Cancel
  else Ignored.

Definition recognized (key : Keystroke) : bool :=
  match signal key with Ignored => false | _ => true end.

Definition decides (key : Keystroke) : bool :=
  match signal key with PreferLeft | PreferRight => true | _ => false end.

Definition left_arrow : Keystroke := mkKey "" (Some "KEY_LEFT"%string).
Definition right_arrow : Keystroke := mkKey "" (Some "KEY_RIGHT"%string).
Definition letter (c : string) : Keystroke := mkKey c None.

(** How the person at the keyboard reacts to the screen: given everything
    written so far and the keystrokes they had planned, the keystrokes they
    are going to type. *)
Definition Operator : Type := list string -> list Keystroke -> list Keystroke.

(** A script typed blind: the planned keystrokes, whatever is shown. *)
Definition scripted : Operator := fun _ pending => pending.

(** An operator who answers the k-th prompt with [d k]; every comparison
    writes a prompt and an echo, so after the k-th prompt (counting from 0)
    the screen holds [2 * k + 1] entries. *)
Definition answering (d : nat -> Keystroke) : Operator :=
  fun screen _ => [d (length screen / 2)].

(** An operator who ranks by [precedes]: when the last thing on the screen
    is the prompt for two of the [candidates], they press the left arrow if
    the left one precedes the right one and the right arrow otherwise. *)
Definition judge (precedes : Item -> Item -> bool) (candidates : list Item) : Operator :=
  fun screen pending =>
    match find (fun p => (prompt_text (fst p) (snd p) =? last screen EmptyString)%string)
               (list_prod candidates candidates) with
    | Some (i, j) => [if precedes i j then left_arrow else right_arrow]
    | None => pending
    end.

(** A stand-in for [random.shuffle]: rotate the list by the generator state. *)
Definition rotate (items : list Item) (g : nat) : list Item * nat :=
  let k := g mod (S (length items)) in
  (skipn k items ++ firstn k items, S g).

(** [a] may come before [b] in a sorted list. *)
Definition not_after (precedes : Item -> Item -> Prop) (a b : Item) : Prop :=
  ~ precedes b a.

Section Script.

(** The state of the [random] module and [random.shuffle], which are not
    part of the repository: any function that hands back the list in some
    order together with the next generator state. *)
Variable RNG : Type.
Variable shuffle : list Item -> RNG -> list Item * RNG.

(** The person (or script) at the keyboard, who is shown every write. *)
Variable operator : Operator.

(** The capability strings [blessed] writes when the full-screen mode is
    entered and left. *)
Variable enter_fullscreen exit_fullscreen : string.

Record World : Type := mkWorld {
  keys : list Keystroke;                 (* read by term.inkey(), in order *)
  stdout : list string;                  (* one entry per write *)
  stdin : list string;                   (* lines read by input() *)
  files : list (string * list string);   (* files written, latest first *)
  rng : RNG
}.

Definition with_keys (ks : list Keystroke) (w : World) : World :=
  mkWorld ks (stdout w) (stdin w) (files w) (rng w).

Inductive Outcome (A : Type) : Type :=
| Returned (a : A) (w : World)      (* the call returns [a] *)
| Raised (e : Exception) (w : World) (* the call raises [e] *)
| Blocked (w : World)               (* waits for input that never comes *)
| Unfinished (w : World).           (* a loop used up its iteration budget *)

Arguments Returned {A} a w.
Arguments Raised {A} e w.
Arguments Blocked {A} w.
Arguments Unfinished {A} w.

Definition M (A : Type) : Type := World -> Outcome A.

Definition ret {A} (a : A) : M A := fun w => Returned a w.

Definition bind {A B} (c : M A) (k : A -> M B) : M B :=
  fun w =>
    match c w with
    | Returned a w' => k a w'
    | Raised e w' => Raised e w'
    | Blocked w' => Blocked w'
    | Unfinished w' => Unfinished w'
    end.

Definition raise {A} (e : Exception) : M A := fun w => Raised e w.

Notation "x <- c ;; k" := (bind c (fun x => k))
  (at level 61, c at next level, right associativity).
Notation "c ;; k" := (bind c (fun _ => k))
  (at level 61, right associativity).

(** ** The built-ins the script calls *)

(** [sys.stdout.write(s)]: the text is appended to the screen and the
    operator reacts to it. *)
Definition written (s : string) (w : World) : World :=
  let screen := stdout w ++ [s] in
  mkWorld (operator screen (keys w)) screen (stdin w) (files w) (rng w).

Definition write (s : string) : M unit := fun w => Returned tt (written s w).

(** [print(s)] and [print(s, end='', flush=True)]. *)
Definition print (s : string) : M unit := write (s ++ newline)%string.
Definition print_noend (s : string) : M unit := write s.

(** [sys.exit()]: raises [SystemExit] with no exit code. *)
Definition sys_exit {A} : M A := raise (SystemExit None).

(** [random.shuffle(items)]; the list is shuffled in place in Python, here
    the shuffled list is returned and rebinds [items]. *)
Definition random_shuffle (items : list Item) : M (list Item) :=
  fun w =>
    let (items', g) := shuffle items (rng w) in
    Returned items' (mkWorld (keys w) (stdout w) (stdin w) (files w) g).

(** [input(prompt)] *)
Definition input (prompt : string) : M string :=
  write prompt ;;
  fun w =>
    match stdin w with
    | [] => Blocked w
    | line :: rest => Returned line (mkWorld (keys w) (stdout w) rest (files w) (rng w))
    end.

(** [with open(filename, 'w') as f: ... f.write(chunk) ...] *)
Definition write_file (filename : string) (chunks : list string) : M unit :=
  fun w => Returned tt (mkWorld (keys w) (stdout w) (stdin w) ((filename, chunks) :: files w) (rng w)).

(** ** input_handler *)

(** The [while True] loop of [input_handler]; [pending] is [keys w], and
    [term.inkey()] takes its head.  With no key left the call waits. *)
Fixpoint await_choice (pending : list Keystroke) (w : World) : Outcome string :=
  match pending with
  | [] => Blocked w
  | key :: rest =>
      let w := with_keys rest w in
      if name_is key "KEY_LEFT" then
        (print "←" ;; ret "left"%string) w
      else if name_is key "KEY_RIGHT" then
        (print "→" ;; ret "right"%string) w
      else if (lower (text key) =? "q")%string then
        (print "q" ;; sys_exit) w
      else await_choice rest w
  end.

Definition input_handler (i j : Item) : M string :=
  print_noend (prompt_text i j) ;;
  fun w => await_choice (keys w) w.

(** ** merge_with_preference *)

(** [xs[i]] for a cursor the loop condition keeps in range. *)
Definition item_at (xs : list Item) (i : nat) : Item := nth i xs EmptyString.

(** The [while i < len(left) and j < len(right)] loop followed by the two
    [extend] calls.  [budget] bounds the number of iterations. *)
Fixpoint merge_loop (budget : nat) (left right : list Item) (i j : nat)
         (result : list Item) : M (list Item) :=
  match budget with
  | 0 => fun w => Unfinished w
  | S budget' =>
      if (i <? length left) && (j <? length right) then
        choice <- input_handler (item_at left i) (item_at right j) ;;
        if (choice =? "left")%string then
          merge_loop budget' left right (i + 1) j (result ++ [item_at left i])
        else if (choice =? "right")%string then
          merge_loop budget' left right i (j + 1) (result ++ [item_at right j])
        else
          merge_loop budget' left right i j result
      else
        ret (result ++ skipn i left ++ skipn j right)
  end.

(** Every iteration moves one cursor, so [len(left) + len(right)]
    iterations and the final test fit in the budget
    (see [merge_with_preference_finishes]). *)
Definition merge_with_preference (left right : list Item) : M (list Item) :=
  merge_loop (S (length left + length right)) left right 0 0 [].

(** ** head_to_head_sorter *)

(** [limit] is the number of nested calls of [head_to_head_sorter] the
    interpreter still allows; at 0 the call raises [RecursionError]. *)
Fixpoint head_to_head_sorter (limit : nat) (items : list Item) : M (list Item) :=
  match limit with
  | 0 => raise RecursionError
  | S limit' =>
      if length items =? 1 then ret items
      else
        items <- random_shuffle items ;;
        let mid := length items / 2 in
        left <- head_to_head_sorter limit' (firstn mid items) ;;
        right <- head_to_head_sorter limit' (skipn mid items) ;;
        merge_with_preference left right
  end.

(** ** main and the script body *)

(** [for i, item in enumerate(sorted_items): print(f'{i+1}. {item}')] *)
Fixpoint print_ranking (i : nat) (sorted_items : list Item) : M unit :=
  match sorted_items with
  | [] => ret tt
  | item :: rest =>
      print (decimal (i + 1) ++ ". " ++ item)%string ;;
      print_ranking (S i) rest
  end.

(** The [while True] loop of [main] that asks whether to save. *)
Fixpoint await_save (pending : list Keystroke) (sorted_items : list Item)
         (w : World) : Outcome unit :=
  match pending with
  | [] => Blocked w
  | save :: rest =>
      let w := with_keys rest w in
      if (lower (text save) =? "y")%string then
        (print "y" ;;
         save_filename <- input "Enter filename: " ;;
         write_file save_filename (map (fun item => item ++ newline)%string sorted_items) ;;
         print ("Sorted list saved to " ++ save_filename)%string) w
      else if (lower (text save) =? "n")%string then
        print "n" w
      else await_save rest sorted_items w
  end.

(** [main(term)], from the point where the lines of the file named on the
    command line have been read into [items]. *)
Definition main (limit : nat) (items : list Item) : M unit :=
  sorted_items <- head_to_head_sorter limit items ;;
  print (newline ++ "Sorted list:")%string ;;
  print_ranking 0 sorted_items ;;
  print_noend (newline ++ "Save sorted list to file? (y/n): ")%string ;;
  fun w => await_save (keys w) sorted_items w.

(** [with term.fullscreen(), term.cbreak(): main(term)]: the full-screen
    mode is left on the way out, also when an exception passes through. *)
Definition script (limit : nat) (items : list Item) : M unit :=
  write enter_fullscreen ;;
  fun w =>
    match main limit items w with
    | Returned _ w' => write exit_fullscreen w'
    | Raised e w' => (write exit_fullscreen ;; raise e) w'
    | Blocked w' => Blocked w'
    | Unfinished w' => Unfinished w'
    end.

(** The exit status of the interpreter: 0 when the script runs to its end
    or [SystemExit] carries no code, the code when it carries one, 1 for
    any other uncaught exception; none while the script is still waiting. *)
Definition exit_status {A} (o : Outcome A) : option Z :=
  match o with
  | Returned _ _ => Some 0%Z
  | Raised (SystemExit None) _ => Some 0%Z
  | Raised (SystemExit (Some n)) _ => Some n
  | Raised RecursionError _ => Some 1%Z
  | Blocked _ => None
  | Unfinished _ => None
  end.

(** ** Vocabulary of the properties *)

(** [w'] is [w] with [lines] written and nothing else touched but the
    pending keystrokes. *)
Definition wrote (w w' : World) (lines : list string) : Prop :=
  stdout w' = stdout w ++ lines /\ stdin w' = stdin w /\
  files w' = files w /\ rng w' = rng w.

(** What [input_handler] does once [key] has been read and is not ignored. *)
Definition respond (key : Keystroke) (w : World) : Outcome string :=
  match signal key with
  | PreferLeft => Returned "left"%string (written ("←" ++ newline)%string w)
  | PreferRight => Returned "right"%string (written ("→" ++ newline)%string w)
  | Cancel => Raised (SystemExit None) (written ("q" ++ newline)%string w)
  | Ignored => Blocked w
  end.

(** The four ways a call of [input_handler] can end. *)
Inductive handled (i j : Item) (w : World) : Outcome string -> Prop :=
| handled_left w' :
    wrote w w' [prompt_text i j; ("←" ++ newline)%string] ->
    handled i j w (Returned "left"%string w')
| handled_right w' :
    wrote w w' [prompt_text i j; ("→" ++ newline)%string] ->
    handled i j w (Returned "right"%string w')
| handled_cancel w' :
    wrote w w' [prompt_text i j; ("q" ++ newline)%string] ->
    handled i j w (Raised (SystemExit None) w')
| handled_waiting w' :
    wrote w w' [prompt_text i j] ->
    keys w' = [] ->
    handled i j w (Blocked w').

(** The runs of the loop, one constructor per way through its body:
    [merge_run left right i j result w o] when the loop entered with cursors
    [i], [j] and [result] in world [w] ends in [o]. *)
Inductive merge_run (left right : list Item) :
  nat -> nat -> list Item -> World -> Outcome (list Item) -> Prop :=
| merge_run_done i j result w :
    (i <? length left) && (j <? length right) = false ->
    merge_run left right i j result w
              (Returned (result ++ skipn i left ++ skipn j right) w)
| merge_run_left i j result w w1 o :
    i < length left -> j < length right ->
    input_handler (item_at left i) (item_at right j) w = Returned "left"%string w1 ->
    merge_run left right (i + 1) j (result ++ [item_at left i]) w1 o ->
    merge_run left right i j result w o
| merge_run_right i j result w w1 o :
    i < length left -> j < length right ->
    input_handler (item_at left i) (item_at right j) w = Returned "right"%string w1 ->
    merge_run left right i (j + 1) (result ++ [item_at right j]) w1 o ->
    merge_run left right i j result w o
| merge_run_raised i j result w e w1 :
    i < length left -> j < length right ->
    input_handler (item_at left i) (item_at right j) w = Raised e w1 ->
    merge_run left right i j result w (Raised e w1)
| merge_run_blocked i j result w w1 :
    i < length left -> j < length right ->
    input_handler (item_at left i) (item_at right j) w = Blocked w1 ->
    merge_run left right i j result w (Blocked w1).

(** The world an outcome leaves behind. *)
Definition outcome_world {A} (o : Outcome A) : World :=
  match o with
  | Returned _ w => w
  | Raised _ w => w
  | Blocked w => w
  | Unfinished w => w
  end.

(** What a comparison writes: its prompt and the echo of the key pressed. *)
Definition comparison_line (s : string) : Prop :=
  (exists i j, s = prompt_text i j) \/
  s = ("←" ++ newline)%string \/ s = ("→" ++ newline)%string \/
  s = ("q" ++ newline)%string.

(** A computation that writes nothing but comparisons and leaves the files
    and the lines typed at [input()] alone. *)
Definition only_compares {A} (c : M A) : Prop :=
  forall w, exists lines,
    stdout (outcome_world (c w)) = stdout w ++ lines /\
    Forall comparison_line lines /\
    stdin (outcome_world (c w)) = stdin w /\
    files (outcome_world (c w)) = files w.

(** A computation whose only exceptions are [RecursionError] and the
    [SystemExit] of a cancelled comparison, raised in the very world that
    comparison left. *)
Definition exits_at_gateway {A} (c : M A) : Prop :=
  forall w e w',
    c w = Raised e w' ->
    e = RecursionError \/
    (e = SystemExit None /\
     exists i j w0, input_handler i j w0 = Raised (SystemExit None) w').

(** A decision source that settles every comparison between two of the
    items [among]. *)
Definition decisive (among : list Item) : Prop :=
  forall i j w, In i among -> In j among ->
    exists choice w', input_handler i j w = Returned choice w'.

End Script.

Arguments mkWorld {RNG} _ _ _ _ _.
Arguments keys {RNG} _.
Arguments stdout {RNG} _.
Arguments stdin {RNG} _.
Arguments files {RNG} _.
Arguments rng {RNG} _.
Arguments with_keys {RNG} _ _.
Arguments Returned {RNG A} _ _.
Arguments Raised {RNG A} _ _.
Arguments Blocked {RNG A} _.
Arguments Unfinished {RNG A} _.
Arguments exit_status {RNG A} _.
Arguments wrote {RNG} _ _ _.
Arguments outcome_world {RNG A} _.
Arguments only_compares {RNG A} _.

(** The number of comparisons put to the operator between two worlds of a
    run: every call of [input_handler] that returns has written two entries,
    the prompt and the echo of the arrow pressed, and nothing else is written
    while the sorter runs. *)
Definition comparisons {RNG} (w w' : World RNG) : nat :=
  (length (stdout w') - length (stdout w)) / 2.

(** The world [w] with the keystrokes [extra] planned after the pending ones. *)
Definition type_more {RNG} (extra : list Keystroke) (w : World RNG) : World RNG :=
  with_keys (keys w ++ extra) w.

(** A computation run blind keeps its course when more keystrokes are
    planned: it ends the same way with them left over, and where it was
    waiting for a key it is cancelled when the next key is [q]. *)
Definition follows_script {RNG A} (c : M RNG A) : Prop :=
  forall w extra,
    match c w with
    | Returned a w1 => c (type_more extra w) = Returned a (type_more extra w1)
    | Raised e w1 => c (type_more extra w) = Raised e (type_more extra w1)
    | Unfinished w1 => c (type_more extra w) = Unfinished (type_more extra w1)
    | Blocked wb =>
        keys wb = [] /\
        forall q rest,
          extra = q :: rest -> signal q = Cancel ->
          c (type_more extra w) =
          Raised (SystemExit None)
                 (written RNG scripted ("q" ++ newline)%string (with_keys rest wb))
    end.

(** A world with the keystrokes [ks] planned, an empty screen, nothing typed
    at [input()], no file written and the generator in state 0. *)
Definition fresh (ks : list Keystroke) : World nat := mkWorld ks [] [] [] 0.

(** ** Sample inputs *)

Definition fruit : list Item := ["banana"; "apple"; "cherry"]%string.

(** Alphabetical preference. *)
Definition alphabetical (a b : Item) : bool := String.ltb a b.

(** Left and right arrows in turn. *)
Definition alternating (k : nat) : Keystroke :=
  if Nat.even k then left_arrow else right_arrow.

(** Where the sort of [fruit] stands after one left arrow: the first
    comparison is answered and the second is on the screen. *)
Definition second_comparison (before : list string) : World nat :=
  mkWorld [] (before ++ [prompt_text "cherry" "apple"; ("←" ++ newline)%string;
                         prompt_text "banana" "cherry"]) [] [] 2.

(** A run of the script that is cancelled at the second comparison and one
    that runs to its end without saving. *)
Definition cancelled_run : Outcome nat unit :=
  script nat rotate scripted "[enter]" "[exit]" 3 fruit
         (fresh [left_arrow; letter "Q"; right_arrow]).

Definition completed_run : Outcome nat unit :=
  script nat rotate scripted "[enter]" "[exit]" 3 fruit
         (fresh [left_arrow; right_arrow; left_arrow; letter "n"]).

(** ** Vocabulary of the further properties *)

(** [xs] is [left] and [right] dealt into one list, each in its own order. *)
Inductive Interleave : list Item -> list Item -> list Item -> Prop :=
| Interleave_nil : Interleave [] [] []
| Interleave_left x l r xs :
    Interleave l r xs -> Interleave (x :: l) r (x :: xs)
| Interleave_right y l r xs :
    Interleave l r xs -> Interleave l (y :: r) (y :: xs).

(** What a comparison between two of [items] writes. *)
Definition comparison_among (items : list Item) (s : string) : Prop :=
  (exists i j, In i items /\ In j items /\ s = prompt_text i j) \/
  s = ("←" ++ newline)%string \/ s = ("→" ++ newline)%string \/
  s = ("q" ++ newline)%string.

(** What [input_handler] echoes for a recognized keystroke. *)
Definition echo (key : Keystroke) : string :=
  match signal key with
  | PreferLeft => "←"
  | PreferRight => "→"
  | Cancel => "q"
  | Ignored => ""
  end.

(** The ranking on the screen: the items numbered from [first]. *)
Definition ranking_lines (first : nat) (sorted_items : list Item) : list string :=
  map (fun p => ((decimal (fst p) ++ ". " ++ snd p) ++ newline)%string)
      (combine (seq first (length sorted_items)) sorted_items).


(** A computation run blind that, when it returns, has read its keystrokes
    in the order they were planned, none of them a [q], and has written two
    entries for every arrow among them. *)
Definition reads_in_order {RNG A} (c : M RNG A) : Prop :=
  forall w a w',
    c w = Returned a w' ->
    exists used,
      keys w = used ++ keys w' /\
      length (stdout w') = length (stdout w) + 2 * length (filter decides used) /\
      Forall (fun key => signal key <> Cancel) used.

(** A computation that waits only with no key pending and a prompt of
    [input_handler] as the last thing on the screen. *)
Definition waits_at_prompt {RNG A} (c : M RNG A) : Prop :=
  forall w wb,
    c w = Blocked wb ->
    keys wb = [] /\ exists shown i j, stdout wb = shown ++ [prompt_text i j].

(** * Properties *)

Section Facts.

Context {RNG : Type}.
Variable shuffle : list Item -> RNG -> list Item * RNG.
Variable operator : Operator.

Local Notation World := (World RNG).
Local Notation written := (written RNG operator).
Local Notation write := (write RNG operator).
Local Notation print := (print RNG operator).
Local Notation await_choice := (await_choice RNG operator).
Local Notation input_handler := (input_handler RNG operator).
Local Notation merge_loop := (merge_loop RNG operator).
Local Notation merge_with_preference := (merge_with_preference RNG operator).
Local Notation random_shuffle := (random_shuffle RNG shuffle).
Local Notation head_to_head_sorter := (head_to_head_sorter RNG shuffle operator).
Local Notation respond := (respond RNG operator).
Local Notation handled := (handled RNG).
Local Notation merge_run := (merge_run RNG operator).
Local Notation decisive := (decisive RNG operator).
Local Notation exits_at_gateway := (exits_at_gateway RNG operator).

(** ** The gateway *)

Lemma await_choice_cons key rest w :
  await_choice (key :: rest) w =
  match signal key with
  | Ignored => await_choice rest (with_keys rest w)
  | _ => respond key (with_keys rest w)
  end.
Proof.
  unfold respond, signal. simpl.
  destruct (name_is key "KEY_LEFT"); [reflexivity|].
  destruct (name_is key "KEY_RIGHT"); [reflexivity|].
  destruct (lower (text key) =? "q")%string; reflexivity.
Qed.

(** Unrecognized keystrokes are skipped. *)
Lemma await_choice_skip pre rest w :
  Forall (fun key => signal key = Ignored) pre ->
  pre <> [] ->
  await_choice (pre ++ rest) w = await_choice rest (with_keys rest w).
Proof.
  intros Hpre. revert w. induction Hpre as [|key pre Hkey Hpre IH]; intros w Hne.
  - congruence.
  - simpl app. rewrite await_choice_cons, Hkey.
    destruct pre as [|key' pre'].
    + reflexivity.
    + rewrite IH by discriminate. reflexivity.
Qed.

(** The loop stops at the first recognized keystroke, or waits. *)
Lemma await_choice_first pending w :
  keys w = pending ->
  (Forall (fun key => signal key = Ignored) pending /\
   await_choice pending w = Blocked (with_keys [] w))
  \/
  (exists pre key post,
      pending = pre ++ key :: post /\
      Forall (fun key => signal key = Ignored) pre /\
      signal key <> Ignored /\
      await_choice pending w = respond key (with_keys post w)).
Proof.
  revert w. induction pending as [|key rest IH]; intros w Hw.
  - left. split; [constructor|]. simpl. destruct w; simpl in *; subst; reflexivity.
  - rewrite await_choice_cons.
    destruct (signal key) eqn:Hkey;
      try (right; exists [], key, rest; repeat split; simpl; auto; congruence).
    destruct (IH (with_keys rest w) eq_refl) as [[Hall Hb]|(pre & k & post & Hp & Hpre & Hk & Hr)].
    + left. split; [constructor; [exact Hkey | exact Hall]|]. exact Hb.
    + right. exists (key :: pre), k, post. subst rest. repeat split; auto.
Qed.

Lemma find_recognized_app pre key post :
  Forall (fun key => signal key = Ignored) pre ->
  signal key <> Ignored ->
  find recognized (pre ++ key :: post) = Some key.
Proof.
  intros Hpre Hkey. induction Hpre as [|k pre Hk Hpre IH]; simpl.
  - unfold recognized. destruct (signal key); congruence.
  - unfold recognized at 1. rewrite Hk. exact IH.
Qed.

Lemma find_recognized_none pending :
  Forall (fun key => signal key = Ignored) pending ->
  find recognized pending = None.
Proof.
  induction 1 as [|k pre Hk Hpre IH]; simpl; [reflexivity|].
  unfold recognized at 1. rewrite Hk. exact IH.
Qed.

Lemma find_decides_app pre key post :
  Forall (fun key => signal key = Ignored) pre ->
  decides key = true ->
  find decides (pre ++ key :: post) = Some key.
Proof.
  intros Hpre Hkey. induction Hpre as [|k pre Hk Hpre IH]; simpl.
  - rewrite Hkey. reflexivity.
  - unfold decides at 1. rewrite Hk. exact IH.
Qed.

Lemma input_handler_unfold i j w :
  input_handler i j w =
  await_choice (keys (written (prompt_text i j) w)) (written (prompt_text i j) w).
Proof. reflexivity. Qed.

Lemma respond_handled i j w key post :
  signal key <> Ignored ->
  handled i j w (respond key (with_keys post (written (prompt_text i j) w))).
Proof.
  intros Hkey. unfold respond.
  destruct (signal key); try congruence; constructor;
    unfold wrote; simpl; rewrite <- app_assoc; auto.
Qed.

Lemma input_handler_handled i j w : handled i j w (input_handler i j w).
Proof.
  rewrite input_handler_unfold.
  destruct (await_choice_first _ (written (prompt_text i j) w) eq_refl)
    as [[_ ->]|(pre & key & post & _ & _ & Hkey & ->)].
  - constructor; [|reflexivity].
    unfold wrote; simpl; auto.
  - apply respond_handled, Hkey.
Qed.

(** ** The merge loop *)

Lemma skipn_item_at (xs : list Item) i :
  i < length xs -> skipn i xs = item_at xs i :: skipn (S i) xs.
Proof.
  revert i. induction xs as [|x xs IH]; intros i Hi; simpl in Hi; [lia|].
  destruct i as [|i]; [reflexivity|].
  simpl. apply IH. lia.
Qed.

Lemma item_at_In (xs : list Item) i : i < length xs -> In (item_at xs i) xs.
Proof. intros Hi. apply nth_In, Hi. Qed.

(** Every iteration moves a cursor, so a budget above the number of items
    still to be read is never used up: the loop follows [merge_run]. *)
Lemma merge_loop_run left right budget : forall i j result w,
  (length left - i) + (length right - j) < budget ->
  merge_run left right i j result w (merge_loop budget left right i j result w).
Proof.
  induction budget as [|budget IH]; intros i j result w Hb; [lia|].
  simpl. destruct ((i <? length left) && (j <? length right)) eqn:Hr.
  - apply andb_true_iff in Hr. destruct Hr as [Hi Hj].
    apply Nat.ltb_lt in Hi, Hj. unfold bind.
    pose proof (input_handler_handled (item_at left i) (item_at right j) w) as H.
    inversion H as [w' Hw E|w' Hw E|w' Hw E|w' Hw Hk E]; simpl.
    + eapply merge_run_left; eauto. apply IH. lia.
    + eapply merge_run_right; eauto. apply IH. lia.
    + apply merge_run_raised; auto.
    + apply merge_run_blocked; auto.
  - apply merge_run_done, Hr.
Qed.

Lemma merge_with_preference_run left right w :
  merge_run left right 0 0 [] w (merge_with_preference left right w).
Proof. apply merge_loop_run. lia. Qed.

(** The budget of [merge_with_preference] is enough. *)
Lemma merge_with_preference_finishes left right w w' :
  merge_with_preference left right w <> Unfinished w'.
Proof.
  intros E. pose proof (merge_with_preference_run left right w) as H.
  rewrite E in H. clear E. remember (Unfinished w') as o eqn:Ho.
  induction H; auto; discriminate.
Qed.

(** A merge that returns hands back the items it was given. *)
Lemma merge_run_permutation left right i j result w xs w' :
  merge_run left right i j result w (Returned xs w') ->
  Permutation (result ++ skipn i left ++ skipn j right) xs.
Proof.
  intros H. remember (Returned xs w') as o eqn:Ho.
  induction H as [i j result w Hr|i j result w w1 o Hi Hj E H IH
                  |i j result w w1 o Hi Hj E H IH| |]; try discriminate.
  - inversion Ho. reflexivity.
  - rewrite <- (IH Ho), (skipn_item_at left i Hi), Nat.add_1_r, <- app_assoc.
    reflexivity.
  - rewrite <- (IH Ho), (skipn_item_at right j Hj), Nat.add_1_r, <- app_assoc.
    apply Permutation_app_head. simpl.
    symmetry. apply Permutation_middle.
Qed.

Lemma merge_with_preference_permutation left right w xs w' :
  merge_with_preference left right w = Returned xs w' ->
  Permutation (left ++ right) xs.
Proof.
  intros E. pose proof (merge_with_preference_run left right w) as H.
  rewrite E in H. apply merge_run_permutation in H. exact H.
Qed.

(** ** What the sorter writes *)

Lemma only_compares_ret {A} (a : A) : only_compares (ret RNG a).
Proof.
  intros w. exists []. simpl. rewrite app_nil_r. auto.
Qed.

Lemma only_compares_raise {A} e : only_compares (@raise RNG A e).
Proof.
  intros w. exists []. simpl. rewrite app_nil_r. auto.
Qed.

Lemma only_compares_shuffle items : only_compares (random_shuffle items).
Proof.
  intros w. exists []. unfold random_shuffle.
  destruct (shuffle items (rng w)). simpl. rewrite app_nil_r. auto.
Qed.

Lemma only_compares_bind {A B} (c : M RNG A) (k : A -> M RNG B) :
  only_compares c -> (forall a, only_compares (k a)) ->
  only_compares (bind RNG c k).
Proof.
  intros Hc Hk w. destruct (Hc w) as (l1 & H1 & F1 & S1 & G1).
  unfold bind. destruct (c w) as [a w1|e w1|w1|w1]; simpl in *;
    [|exists l1; auto..].
  destruct (Hk a w1) as (l2 & H2 & F2 & S2 & G2).
  exists (l1 ++ l2). rewrite H2, H1, S2, S1, G2, G1, app_assoc.
  repeat split; auto. apply Forall_app. auto.
Qed.

Lemma only_compares_input_handler i j : only_compares (input_handler i j).
Proof.
  intros w. pose proof (input_handler_handled i j w) as H.
  assert (P : comparison_line (prompt_text i j)) by (left; eauto).
  destruct H as [w' (Ho & Hs & Hf & _)|w' (Ho & Hs & Hf & _)
                 |w' (Ho & Hs & Hf & _)|w' (Ho & Hs & Hf & _) _];
    simpl; eexists; (split; [exact Ho|]); (split; [|split; assumption]);
    repeat first [apply Forall_nil | apply Forall_cons]; try exact P;
    unfold comparison_line; auto.
Qed.

Lemma only_compares_merge_loop budget left right : forall i j result,
  only_compares (merge_loop budget left right i j result).
Proof.
  induction budget as [|budget IH]; intros i j result.
  - intros w. exists []. simpl. rewrite app_nil_r. auto.
  - simpl. destruct ((i <? length left) && (j <? length right)).
    + apply only_compares_bind; [apply only_compares_input_handler|].
      intros choice. destruct (choice =? "left")%string; [apply IH|].
      destruct (choice =? "right")%string; apply IH.
    + apply only_compares_ret.
Qed.

Lemma only_compares_sorter limit : forall items,
  only_compares (head_to_head_sorter limit items).
Proof.
  induction limit as [|limit IH]; intros items.
  - apply only_compares_raise.
  - simpl. destruct (length items =? 1); [apply only_compares_ret|].
    apply only_compares_bind; [apply only_compares_shuffle|]. intros shuffled.
    apply only_compares_bind; [apply IH|]. intros lhs.
    apply only_compares_bind; [apply IH|]. intros rhs.
    apply only_compares_merge_loop.
Qed.

(** ** Where exceptions come from *)

Lemma exits_at_gateway_ret {A} (a : A) : exits_at_gateway (ret RNG a).
Proof. intros w e w' E. discriminate. Qed.

Lemma exits_at_gateway_raise {A} : exits_at_gateway (@raise RNG A RecursionError).
Proof. intros w e w' E. inversion E. auto. Qed.

Lemma exits_at_gateway_shuffle items : exits_at_gateway (random_shuffle items).
Proof.
  intros w e w' E. unfold random_shuffle in E.
  destruct (shuffle items (rng w)). discriminate.
Qed.

Lemma exits_at_gateway_bind {A B} (c : M RNG A) (k : A -> M RNG B) :
  exits_at_gateway c -> (forall a, exits_at_gateway (k a)) ->
  exits_at_gateway (bind RNG c k).
Proof.
  intros Hc Hk w e w' E. unfold bind in E.
  destruct (c w) as [a w1|e1 w1|w1|w1] eqn:Ec; try discriminate.
  - exact (Hk a w1 e w' E).
  - inversion E; subst. exact (Hc w e w' Ec).
Qed.

Lemma exits_at_gateway_input_handler i j : exits_at_gateway (input_handler i j).
Proof.
  intros w e w' E. pose proof (input_handler_handled i j w) as H.
  rewrite E in H. inversion H; subst. right. split; [reflexivity|]. eauto.
Qed.

Lemma exits_at_gateway_merge_loop budget left right : forall i j result,
  exits_at_gateway (merge_loop budget left right i j result).
Proof.
  induction budget as [|budget IH]; intros i j result.
  - intros w e w' E. discriminate.
  - simpl. destruct ((i <? length left) && (j <? length right)).
    + apply exits_at_gateway_bind; [apply exits_at_gateway_input_handler|].
      intros choice. destruct (choice =? "left")%string; [apply IH|].
      destruct (choice =? "right")%string; apply IH.
    + apply exits_at_gateway_ret.
Qed.

Lemma exits_at_gateway_sorter limit : forall items,
  exits_at_gateway (head_to_head_sorter limit items).
Proof.
  induction limit as [|limit IH]; intros items.
  - apply exits_at_gateway_raise.
  - simpl. destruct (length items =? 1); [apply exits_at_gateway_ret|].
    apply exits_at_gateway_bind; [apply exits_at_gateway_shuffle|]. intros shuffled.
    apply exits_at_gateway_bind; [apply IH|]. intros lhs.
    apply exits_at_gateway_bind; [apply IH|]. intros rhs.
    apply exits_at_gateway_merge_loop.
Qed.

(** ** The recursion *)

(** [random.shuffle] reorders its argument and does nothing else to it. *)
Hypothesis shuffle_permutes :
  forall items g, Permutation items (fst (shuffle items g)).

Lemma head_to_head_sorter_step limit items w :
  head_to_head_sorter (S limit) items w =
  if length items =? 1 then Returned items w
  else
    let shuffled := fst (shuffle items (rng w)) in
    let w1 := mkWorld (keys w) (stdout w) (stdin w) (files w) (snd (shuffle items (rng w))) in
    let mid := length shuffled / 2 in
    match head_to_head_sorter limit (firstn mid shuffled) w1 with
    | Returned lhs w2 =>
        match head_to_head_sorter limit (skipn mid shuffled) w2 with
        | Returned rhs w3 => merge_with_preference lhs rhs w3
        | Raised e w3 => Raised e w3
        | Blocked w3 => Blocked w3
        | Unfinished w3 => Unfinished w3
        end
    | Raised e w2 => Raised e w2
    | Blocked w2 => Blocked w2
    | Unfinished w2 => Unfinished w2
    end.
Proof.
  simpl. destruct (length items =? 1); [reflexivity|].
  unfold bind, random_shuffle. destruct (shuffle items (rng w)); reflexivity.
Qed.

Lemma half_bounds n :
  2 <= n -> 1 <= n / 2 /\ n / 2 < n /\ 1 <= n - n / 2 /\ n - n / 2 < n.
Proof.
  intros Hn. pose proof (Nat.div_mod_eq n 2) as E.
  pose proof (Nat.mod_upper_bound n 2) as B. lia.
Qed.

Lemma half_pow n k :
  n <= 2 ^ S k -> n / 2 <= 2 ^ k /\ n - n / 2 <= 2 ^ k.
Proof.
  rewrite Nat.pow_succ_r'. intros Hn. pose proof (Nat.div_mod_eq n 2) as E.
  pose proof (Nat.mod_upper_bound n 2) as B. lia.
Qed.

Lemma sorter_permutation limit : forall items w xs w',
  head_to_head_sorter limit items w = Returned xs w' ->
  Permutation items xs.
Proof.
  induction limit as [|limit IH]; intros items w xs w' E; [discriminate|].
  rewrite head_to_head_sorter_step in E.
  destruct (length items =? 1).
  - inversion E. reflexivity.
  - cbv zeta in E.
    set (shuffled := fst (shuffle items (rng w))) in *.
    destruct (head_to_head_sorter limit (firstn _ shuffled) _)
      as [lhs w2| | |] eqn:E1; try discriminate.
    destruct (head_to_head_sorter limit (skipn _ shuffled) _)
      as [rhs w3| | |] eqn:E2; try discriminate.
    apply IH in E1. apply IH in E2.
    apply merge_with_preference_permutation in E.
    rewrite <- E, <- E1, <- E2, firstn_skipn.
    apply shuffle_permutes.
Qed.

(** No call of the sorter uses up a loop budget. *)
Lemma sorter_finishes limit : forall items w w',
  head_to_head_sorter limit items w <> Unfinished w'.
Proof.
  induction limit as [|limit IH]; intros items w w' E; [discriminate|].
  rewrite head_to_head_sorter_step in E.
  destruct (length items =? 1); [discriminate|].
  cbv zeta in E.
  destruct (head_to_head_sorter limit (firstn _ _) _) as [lhs w2| | |w2] eqn:E1;
    try discriminate; [|eapply IH; eassumption].
  destruct (head_to_head_sorter limit (skipn _ _) _) as [rhs w3| | |w3] eqn:E2;
    try discriminate; [|eapply IH; eassumption].
  eapply merge_with_preference_finishes; eassumption.
Qed.

Lemma merge_run_returns among left right i j result w o :
  decisive among -> incl left among -> incl right among ->
  merge_run left right i j result w o ->
  exists xs w', o = Returned xs w'.
Proof.
  intros Hd Hl Hr H.
  induction H as [i j result w Hrange| | |i j result w e w1 Hi Hj E
                  |i j result w w1 Hi Hj E]; eauto.
  - destruct (Hd (item_at left i) (item_at right j) w) as (c & w' & E');
      [apply Hl, item_at_In, Hi|apply Hr, item_at_In, Hj|congruence].
  - destruct (Hd (item_at left i) (item_at right j) w) as (c & w' & E');
      [apply Hl, item_at_In, Hi|apply Hr, item_at_In, Hj|congruence].
Qed.

Lemma incl_permutation (xs ys among : list Item) :
  Permutation xs ys -> incl xs among -> incl ys among.
Proof.
  intros Hp Hin x Hx. apply Hin.
  apply (Permutation_in x (Permutation_sym Hp)). exact Hx.
Qed.

Lemma incl_firstn (xs among : list Item) n :
  incl xs among -> incl (firstn n xs) among.
Proof.
  intros Hin x Hx. apply Hin. rewrite <- (firstn_skipn n xs).
  apply in_or_app. left. exact Hx.
Qed.

Lemma incl_skipn (xs among : list Item) n :
  incl xs among -> incl (skipn n xs) among.
Proof.
  intros Hin x Hx. apply Hin. rewrite <- (firstn_skipn n xs).
  apply in_or_app. right. exact Hx.
Qed.

Lemma sorter_returns among limit : forall items w,
  decisive among -> incl items among ->
  1 <= length items -> length items <= 2 ^ limit ->
  exists xs w', head_to_head_sorter (S limit) items w = Returned xs w'.
Proof.
  induction limit as [|limit IH]; intros items w Hd Hin Hlo Hhi;
    rewrite head_to_head_sorter_step.
  - simpl in Hhi. replace (length items) with 1 by lia. simpl. eauto.
  - destruct (length items =? 1) eqn:E1; [eauto|].
    apply Nat.eqb_neq in E1. cbv zeta.
    set (shuffled := fst (shuffle items (rng w))).
    assert (Hs : incl shuffled among)
      by (apply (incl_permutation items); [apply shuffle_permutes|exact Hin]).
    assert (Hlen : length shuffled = length items)
      by (symmetry; apply Permutation_length, shuffle_permutes).
    destruct (half_bounds (length shuffled)) as (H1 & H2 & H3 & H4); [lia|].
    destruct (half_pow (length shuffled) limit) as (H5 & H6); [lia|].
    match goal with |- context [head_to_head_sorter (S limit) ?xs ?w1] =>
      destruct (IH xs w1 Hd) as (lhs & w2 & El)
    end; try (rewrite length_firstn; lia); [apply incl_firstn, Hs|].
    rewrite El.
    match goal with |- context [head_to_head_sorter (S limit) ?xs ?w1] =>
      destruct (IH xs w1 Hd) as (rhs & w3 & Er)
    end; try (rewrite length_skipn; lia); [apply incl_skipn, Hs|].
    rewrite Er.
    eapply (merge_run_returns among); [exact Hd| | |apply merge_with_preference_run].
    + apply (incl_permutation _ _ _ (sorter_permutation _ _ _ _ _ El)).
      apply incl_firstn, Hs.
    + apply (incl_permutation _ _ _ (sorter_permutation _ _ _ _ _ Er)).
      apply incl_skipn, Hs.
Qed.

(** On the empty list every call recurses on the empty list again. *)
Lemma sorter_nil limit : forall w,
  exists w', head_to_head_sorter limit [] w = Raised RecursionError w'.
Proof.
  induction limit as [|limit IH]; intros w; [simpl; unfold raise; eauto|].
  rewrite head_to_head_sorter_step. simpl length. simpl Nat.eqb. cbv iota zeta.
  assert (E : fst (shuffle [] (rng w)) = [])
    by (apply Permutation_nil, shuffle_permutes).
  rewrite E. simpl firstn.
  match goal with |- context [head_to_head_sorter limit [] ?w1] =>
    destruct (IH w1) as (w' & ->)
  end.
  eauto.
Qed.

(** ** The claims about the sorter *)

(** C1: a sort that returns hands back a permutation of its input: the same
    length and every item as many times as in the input. *)
Theorem head_to_head_sorter_permutes limit items w xs w' :
  head_to_head_sorter limit items w = Returned xs w' ->
  Permutation items xs /\
  length xs = length items /\
  (forall x, count_occ string_dec xs x = count_occ string_dec items x).
Proof.
  intros E. apply sorter_permutation in E. repeat split.
  - exact E.
  - symmetry. apply Permutation_length, E.
  - intros x. symmetry. apply Permutation_count_occ, E.
Qed.

(** C3: on the empty list the sorter does not return the empty list: for
    every recursion limit the call ends in [RecursionError]. *)
Theorem head_to_head_sorter_empty_list limit w :
  exists w', head_to_head_sorter limit [] w = Raised RecursionError w'.
Proof. apply sorter_nil. Qed.

(** C8: a one-item list is returned as it is, in an unchanged world: nothing
    is written, no keystroke is read, and [input_handler] is not called. *)
Theorem head_to_head_sorter_singleton limit x w :
  head_to_head_sorter (S limit) [x] w = Returned [x] w.
Proof. reflexivity. Qed.

(** One iteration of the merge loop with an answered comparison moves
    exactly one cursor by one. *)
Lemma merge_loop_advances budget left right i j result w choice w1 :
  i < length left -> j < length right ->
  input_handler (item_at left i) (item_at right j) w = Returned choice w1 ->
  exists i' j' result',
    i' + j' = S (i + j) /\
    merge_loop (S budget) left right i j result w =
    merge_loop budget left right i' j' result' w1.
Proof.
  intros Hi Hj E. simpl.
  apply Nat.ltb_lt in Hi, Hj. rewrite Hi, Hj. simpl. unfold bind. rewrite E.
  pose proof (input_handler_handled (item_at left i) (item_at right j) w) as H.
  rewrite E in H. inversion H; subst; simpl.
  - exists (i + 1), j, (result ++ [item_at left i]). split; [lia|reflexivity].
  - exists i, (j + 1), (result ++ [item_at right j]). split; [lia|reflexivity].
Qed.

(** C10: on a list of at least one item, with every comparison between
    its items answered by an arrow, the sorter returns, for any recursion
    limit above the logarithm of the length.  The halves of a list of two or more items are non-empty and
    shorter than the list, and every answered comparison moves one cursor of
    the merge. *)
Theorem head_to_head_sorter_terminates limit items w :
  decisive items ->
  1 <= length items ->
  length items <= 2 ^ limit ->
  (exists xs w', head_to_head_sorter (S limit) items w = Returned xs w') /\
  (2 <= length items ->
   let mid := length items / 2 in
   1 <= length (firstn mid items) < length items /\
   1 <= length (skipn mid items) < length items) /\
  (forall budget left right i j result w0 choice w1,
   i < length left -> j < length right ->
   input_handler (item_at left i) (item_at right j) w0 = Returned choice w1 ->
   exists i' j' result',
     i' + j' = S (i + j) /\
     merge_loop (S budget) left right i j result w0 =
     merge_loop budget left right i' j' result' w1).
Proof.
  intros Hd Hlo Hhi. split; [|split].
  - apply (sorter_returns items); auto using incl_refl.
  - intros H2 mid. subst mid. rewrite length_firstn, length_skipn.
    destruct (half_bounds (length items) H2) as (H3 & H4 & H5 & H6). lia.
  - intros. eapply merge_loop_advances; eassumption.
Qed.

(** ** The claims about the gateway and the merge *)

(** C7: [input_handler] skips every keystroke that is neither an arrow nor
    [q]: what it does is fixed by the first recognized keystroke after the
    prompt, and with none it keeps waiting; no exception other than the
    [SystemExit] of [q] comes out of it.  When it returns, it returns
    ['left'] or ['right'], as the first arrow in the stream says. *)
Theorem input_handler_first_recognized i j w :
  let stream := keys (written (prompt_text i j) w) in
  match find recognized stream with
  | None => exists w', input_handler i j w = Blocked w'
  | Some key =>
      match signal key with
      | PreferLeft => exists w', input_handler i j w = Returned "left"%string w'
      | PreferRight => exists w', input_handler i j w = Returned "right"%string w'
      | Cancel => exists w', input_handler i j w = Raised (SystemExit None) w'
      | Ignored => False
      end
  end /\
  (forall choice w',
      input_handler i j w = Returned choice w' ->
      (choice = "left"%string \/ choice = "right"%string) /\
      exists key,
        find decides stream = Some key /\
        (choice = "left"%string <-> signal key = PreferLeft) /\
        (choice = "right"%string <-> signal key = PreferRight)).
Proof.
  intros stream. subst stream. rewrite input_handler_unfold.
  set (asked := written (prompt_text i j) w).
  destruct (await_choice_first (keys asked) asked eq_refl)
    as [[Hall ->]|(pre & key & post & -> & Hpre & Hkey & ->)].
  - rewrite (find_recognized_none _ Hall). split; [eauto|discriminate].
  - rewrite (find_recognized_app _ _ _ Hpre Hkey). unfold respond.
    destruct (signal key) eqn:Hs; try congruence; (split; [eauto|]);
      intros choice w' E; inversion E; subst; try discriminate.
    + split; [auto|]. exists key. split.
      * apply find_decides_app; [exact Hpre|]. unfold decides. rewrite Hs. reflexivity.
      * rewrite Hs. split; split; intros; congruence.
    + split; [auto|]. exists key. split.
      * apply find_decides_app; [exact Hpre|]. unfold decides. rewrite Hs. reflexivity.
      * rewrite Hs. split; split; intros; congruence.
Qed.

Lemma input_handler_one_comparison i j w choice w' :
  input_handler i j w = Returned choice w' -> comparisons w w' = 1.
Proof.
  intros E. pose proof (input_handler_handled i j w) as H. rewrite E in H.
  unfold comparisons.
  inversion H as [? (Ho & _)|? (Ho & _)| |]; subst; rewrite Ho, length_app;
    simpl; replace (length (stdout w) + 2 - length (stdout w)) with 2 by lia;
    reflexivity.
Qed.

(** The number of entries written by a merge that returns: two for every
    item taken inside the loop. *)
Lemma merge_run_writes left right i j result w xs w' :
  merge_run left right i j result w (Returned xs w') ->
  exists n,
    length (stdout w') = length (stdout w) + 2 * n /\
    ((i <? length left) && (j <? length right) = false -> n = 0) /\
    (i < length left -> j < length right ->
     Nat.min (length left - i) (length right - j) <= n /\
     n + 1 <= (length left - i) + (length right - j)).
Proof.
  intros H. remember (Returned xs w') as o eqn:Ho.
  induction H as [i j result w Hr|i j result w w1 o Hi Hj E H IH
                  |i j result w w1 o Hi Hj E H IH| |]; try discriminate.
  - inversion Ho; subst. exists 0. split; [lia|]. split; [auto|].
    intros Hi Hj. apply Nat.ltb_lt in Hi, Hj. rewrite Hi, Hj in Hr. discriminate.
  - destruct (IH Ho) as (n & Hn & Hz & Hb).
    pose proof (input_handler_handled (item_at left i) (item_at right j) w) as Hh.
    rewrite E in Hh. inversion Hh as [? (Hw & _)| | |]; subst.
    rewrite Hw, length_app in Hn. simpl in Hn.
    exists (S n). split; [lia|]. split.
    + intros Hr. apply Nat.ltb_lt in Hi, Hj. rewrite Hi, Hj in Hr. discriminate.
    + intros _ _. destruct (Nat.lt_ge_cases (i + 1) (length left)) as [Hlt|Hge].
      * specialize (Hb Hlt Hj). lia.
      * assert (n = 0).
        { apply Hz. apply andb_false_iff. left. apply Nat.ltb_ge. exact Hge. }
        lia.
  - destruct (IH Ho) as (n & Hn & Hz & Hb).
    pose proof (input_handler_handled (item_at left i) (item_at right j) w) as Hh.
    rewrite E in Hh. inversion Hh as [|? (Hw & _)| |]; subst.
    rewrite Hw, length_app in Hn. simpl in Hn.
    exists (S n). split; [lia|]. split.
    + intros Hr. apply Nat.ltb_lt in Hi, Hj. rewrite Hi, Hj in Hr. discriminate.
    + intros _ _. destruct (Nat.lt_ge_cases (j + 1) (length right)) as [Hlt|Hge].
      * specialize (Hb Hi Hlt). lia.
      * assert (n = 0).
        { apply Hz. apply andb_false_iff. right. apply Nat.ltb_ge. exact Hge. }
        lia.
Qed.

(** C4, as the code has it: a merge that returns has put at most
    [len(left) + len(right) - 1] comparisons to the operator and at least as
    many as the shorter list has items; with an empty list on either side it
    puts none. *)
Theorem merge_with_preference_comparisons left right w xs w' :
  merge_with_preference left right w = Returned xs w' ->
  (left = [] \/ right = [] -> comparisons w w' = 0) /\
  (left <> [] -> right <> [] ->
   Nat.min (length left) (length right) <= comparisons w w' /\
   comparisons w w' + 1 <= length left + length right).
Proof.
  intros E. pose proof (merge_with_preference_run left right w) as H.
  rewrite E in H. apply merge_run_writes in H.
  destruct H as (n & Hn & Hz & Hb).
  assert (Hc : comparisons w w' = n).
  { unfold comparisons. rewrite Hn.
    replace (length (stdout w) + 2 * n - length (stdout w)) with (n * 2) by lia.
    apply Nat.div_mul. discriminate. }
  rewrite Hc. split.
  - intros [-> | ->]; apply Hz; simpl; auto using andb_false_r.
  - intros Hl Hr. rewrite !Nat.sub_0_r in Hb. apply Hb.
    + destruct left; [congruence|simpl; lia].
    + destruct right; [congruence|simpl; lia].
Qed.

(** ** Sorting by a consistent decision source *)

Section Order.

(** A strict total order on the items being ranked, and a decision source
    that answers every comparison between two of them, with ['left'] exactly
    when the left item precedes the right one. *)
Variable candidates : list Item.
Variable precedes : Item -> Item -> Prop.

Hypothesis precedes_irrefl :
  forall a, In a candidates -> ~ precedes a a.
Hypothesis precedes_trans :
  forall a b c, In a candidates -> In b candidates -> In c candidates ->
  precedes a b -> precedes b c -> precedes a c.
Hypothesis precedes_total :
  forall a b, In a candidates -> In b candidates ->
  precedes a b \/ a = b \/ precedes b a.
Local Notation not_after := (not_after precedes).

Hypothesis answers_by_order :
  forall i j w, In i candidates -> In j candidates ->
  exists choice w',
    input_handler i j w = Returned choice w' /\
    (choice = "left"%string <-> precedes i j).

Lemma answers_decisive : decisive candidates.
Proof.
  intros i j w Hi Hj.
  destruct (answers_by_order i j w Hi Hj) as (choice & w' & E & _). eauto.
Qed.

Lemma answered_by_order i j w choice w' :
  In i candidates -> In j candidates ->
  input_handler i j w = Returned choice w' ->
  (choice = "left"%string <-> precedes i j).
Proof.
  intros Hi Hj E.
  destruct (answers_by_order i j w Hi Hj) as (c & w1 & E1 & H).
  rewrite E in E1. inversion E1; subst. exact H.
Qed.

Lemma precedes_not_after a b :
  In a candidates -> In b candidates -> precedes a b -> not_after a b.
Proof.
  intros Ha Hb Hab Hba. apply (precedes_irrefl a Ha).
  exact (precedes_trans a b a Ha Hb Ha Hab Hba).
Qed.

Lemma not_after_trans a b c :
  In a candidates -> In b candidates -> In c candidates ->
  not_after a b -> not_after b c -> not_after a c.
Proof.
  unfold not_after. intros Ha Hb Hc Hab Hbc Hca.
  destruct (precedes_total a b Ha Hb) as [H|[H|H]].
  - apply Hbc. exact (precedes_trans c a b Hc Ha Hb Hca H).
  - subst b. exact (Hbc Hca).
  - exact (Hab H).
Qed.

Lemma not_after_antisym a b :
  In a candidates -> In b candidates ->
  not_after a b -> not_after b a -> a = b.
Proof.
  unfold not_after. intros Ha Hb Hab Hba.
  destruct (precedes_total a b Ha Hb) as [H|[H|H]]; tauto.
Qed.

Lemma In_skipn_list (xs : list Item) n x : In x (skipn n xs) -> In x xs.
Proof.
  intros H. rewrite <- (firstn_skipn n xs). apply in_or_app. right. exact H.
Qed.

Lemma StronglySorted_skipn (R : Item -> Item -> Prop) xs n :
  StronglySorted R xs -> StronglySorted R (skipn n xs).
Proof.
  intros H. revert n. induction H as [|x xs Hs IH Hx]; intros [|n]; simpl;
    try constructor; auto.
Qed.

Lemma StronglySorted_append (R : Item -> Item -> Prop) xs ys :
  StronglySorted R xs -> StronglySorted R ys ->
  (forall x y, In x xs -> In y ys -> R x y) ->
  StronglySorted R (xs ++ ys).
Proof.
  intros Hxs Hys Hc. induction Hxs as [|x xs Hs IH Hx]; simpl; [exact Hys|].
  constructor.
  - apply IH. intros a b Ha Hb. apply Hc; simpl; auto.
  - apply Forall_app. split; [exact Hx|].
    apply Forall_forall. intros y Hy. apply Hc; simpl; auto.
Qed.

(** The head of what is left of a sorted list may come before the rest. *)
Lemma head_not_after_rest xs i y :
  StronglySorted not_after xs -> i < length xs ->
  In y (skipn (S i) xs) -> not_after (item_at xs i) y.
Proof.
  intros Hs Hi Hy. apply (StronglySorted_skipn _ _ i) in Hs.
  rewrite (skipn_item_at xs i Hi) in Hs. apply StronglySorted_inv in Hs.
  destruct Hs as [_ Hall]. rewrite Forall_forall in Hall. auto.
Qed.

Lemma merge_run_sorted left right :
  incl left candidates -> incl right candidates ->
  StronglySorted not_after left -> StronglySorted not_after right ->
  forall i j result w xs w',
  merge_run left right i j result w (Returned xs w') ->
  StronglySorted not_after result ->
  (forall x y, In x result -> In y (skipn i left ++ skipn j right) -> not_after x y) ->
  StronglySorted not_after xs.
Proof.
  intros Hl Hr Sl Sr i j result w xs w' H.
  remember (Returned xs w') as o eqn:Ho.
  induction H as [i j result w Hrange|i j result w w1 o Hi Hj E H IH
                  |i j result w w1 o Hi Hj E H IH| |];
    try discriminate; intros Sres Hcross.
  - inversion Ho. apply StronglySorted_append; auto.
    apply andb_false_iff in Hrange.
    destruct Hrange as [Hrange|Hrange]; apply Nat.ltb_ge in Hrange.
    + rewrite (skipn_all2 left) by exact Hrange. simpl.
      apply StronglySorted_skipn, Sr.
    + rewrite (skipn_all2 right) by exact Hrange. rewrite app_nil_r.
      apply StronglySorted_skipn, Sl.
  - assert (Ia : In (item_at left i) candidates) by (apply Hl, item_at_In, Hi).
    assert (Ib : In (item_at right j) candidates) by (apply Hr, item_at_In, Hj).
    assert (Hab : precedes (item_at left i) (item_at right j))
      by (apply (answered_by_order _ _ _ _ _ Ia Ib E); reflexivity).
    rewrite (skipn_item_at left i Hi) in Hcross.
    apply (IH Ho).
    + apply StronglySorted_append; auto.
      * repeat constructor.
      * intros x y Hx [<-|[]]. apply Hcross; simpl; auto.
    + rewrite Nat.add_1_r. intros x y Hx Hy.
      apply in_app_or in Hx. destruct Hx as [Hx|[<-|[]]].
      * apply Hcross; auto. simpl. right. exact Hy.
      * apply in_app_or in Hy. destruct Hy as [Hy|Hy].
        -- apply head_not_after_rest; auto.
        -- rewrite (skipn_item_at right j Hj) in Hy. destruct Hy as [<-|Hy].
           ++ apply precedes_not_after; auto.
           ++ apply (not_after_trans _ (item_at right j)); auto.
              ** apply Hr. eapply In_skipn_list. exact Hy.
              ** apply precedes_not_after; auto.
              ** apply head_not_after_rest; auto.
  - assert (Ia : In (item_at left i) candidates) by (apply Hl, item_at_In, Hi).
    assert (Ib : In (item_at right j) candidates) by (apply Hr, item_at_In, Hj).
    assert (Hba : not_after (item_at right j) (item_at left i)).
    { intros Hab. apply (answered_by_order _ _ _ _ _ Ia Ib E) in Hab. discriminate. }
    rewrite (skipn_item_at right j Hj) in Hcross.
    apply (IH Ho).
    + apply StronglySorted_append; auto.
      * repeat constructor.
      * intros x y Hx [<-|[]]. apply Hcross; auto.
        apply in_or_app. right. simpl. auto.
    + rewrite Nat.add_1_r. intros x y Hx Hy.
      apply in_app_or in Hx. destruct Hx as [Hx|[<-|[]]].
      * apply Hcross; auto. apply in_app_or in Hy.
        apply in_or_app. destruct Hy as [Hy|Hy]; [left|right; simpl]; auto.
      * apply in_app_or in Hy. destruct Hy as [Hy|Hy].
        -- rewrite (skipn_item_at left i Hi) in Hy. destruct Hy as [<-|Hy].
           ++ exact Hba.
           ++ apply (not_after_trans _ (item_at left i)); auto.
              ** apply Hl. eapply In_skipn_list. exact Hy.
              ** apply head_not_after_rest; auto.
        -- apply head_not_after_rest; auto.
Qed.

Lemma merge_with_preference_sorted left right w xs w' :
  incl left candidates -> incl right candidates ->
  StronglySorted not_after left -> StronglySorted not_after right ->
  merge_with_preference left right w = Returned xs w' ->
  StronglySorted not_after xs.
Proof.
  intros Hl Hr Sl Sr E.
  pose proof (merge_with_preference_run left right w) as H. rewrite E in H.
  apply (merge_run_sorted left right Hl Hr Sl Sr _ _ _ _ _ _ H).
  - constructor.
  - intros x y [].
Qed.

Lemma sorter_sorted limit : forall items w xs w',
  incl items candidates ->
  head_to_head_sorter limit items w = Returned xs w' ->
  StronglySorted not_after xs.
Proof.
  induction limit as [|limit IH]; intros items w xs w' Hin E; [discriminate|].
  rewrite head_to_head_sorter_step in E.
  destruct (length items =? 1) eqn:E1.
  - inversion E. subst xs. apply Nat.eqb_eq in E1.
    destruct items as [|x [|y items]]; try discriminate.
    repeat constructor.
  - cbv zeta in E.
    set (shuffled := fst (shuffle items (rng w))) in *.
    assert (Hs : incl shuffled candidates).
    { intros x Hx. apply Hin.
      apply (Permutation_in x (Permutation_sym (shuffle_permutes items (rng w)))).
      exact Hx. }
    destruct (head_to_head_sorter limit (firstn _ shuffled) _)
      as [lhs w2| | |] eqn:E2; try discriminate.
    destruct (head_to_head_sorter limit (skipn _ shuffled) _)
      as [rhs w3| | |] eqn:E3; try discriminate.
    assert (Hl : incl (firstn (length shuffled / 2) shuffled) candidates).
    { intros x Hx. apply Hs. rewrite <- (firstn_skipn (length shuffled / 2)).
      apply in_or_app. auto. }
    assert (Hr : incl (skipn (length shuffled / 2) shuffled) candidates).
    { intros x Hx. apply Hs. eapply In_skipn_list. exact Hx. }
    apply (merge_with_preference_sorted lhs rhs w3 xs w'); auto.
    + intros x Hx. apply Hl.
      apply (Permutation_in x (Permutation_sym (sorter_permutation _ _ _ _ _ E2))).
      exact Hx.
    + intros x Hx. apply Hr.
      apply (Permutation_in x (Permutation_sym (sorter_permutation _ _ _ _ _ E3))).
      exact Hx.
    + eapply IH; [exact Hl|exact E2].
    + eapply IH; [exact Hr|exact E3].
Qed.

(** A list has one sorted arrangement. *)
Lemma sorted_permutation_unique xs : forall ys,
  incl xs candidates -> Permutation xs ys ->
  StronglySorted not_after xs -> StronglySorted not_after ys ->
  xs = ys.
Proof.
  induction xs as [|a xs IH]; intros ys Hin Hp Sx Sy.
  - apply Permutation_nil in Hp. congruence.
  - destruct ys as [|b ys].
    + apply Permutation_sym, Permutation_nil in Hp. discriminate.
    + apply StronglySorted_inv in Sx. destruct Sx as [Sx Hx].
      apply StronglySorted_inv in Sy. destruct Sy as [Sy Hy].
      rewrite Forall_forall in Hx, Hy.
      assert (Ia : In a candidates) by (apply Hin; simpl; auto).
      assert (Hb : In b (a :: xs))
        by (apply (Permutation_in b (Permutation_sym Hp)); simpl; auto).
      assert (Ha : In a (b :: ys))
        by (apply (Permutation_in a Hp); simpl; auto).
      assert (Ib : In b candidates) by (apply Hin, Hb).
      assert (a = b) as <-.
      { destruct Hb as [Hb|Hb]; [exact Hb|].
        destruct Ha as [Ha|Ha]; [congruence|].
        apply not_after_antisym; auto. }
      f_equal. apply IH; auto.
      * intros x Hx'. apply Hin. simpl. auto.
      * eapply Permutation_cons_inv. exact Hp.
Qed.

(** C2: when every comparison among the items of the input list is answered
    by a strict total order on them (['left'] exactly when the left item
    precedes the right one), the sort of a non-empty list returns the list
    sorted by that order: a permutation of it in which no item is preceded by
    a later one, which is the only such arrangement.  This holds whatever
    [shuffle] does at each level.  The sort of the empty list does not
    return: it ends in [RecursionError]. *)
Theorem head_to_head_sorter_sorts limit w :
  (candidates = [] ->
   exists w', head_to_head_sorter limit candidates w = Raised RecursionError w') /\
  (1 <= length candidates -> length candidates <= 2 ^ limit ->
   exists xs w',
     head_to_head_sorter (S limit) candidates w = Returned xs w' /\
     Permutation candidates xs /\
     StronglySorted not_after xs /\
     (forall ys, Permutation candidates ys -> StronglySorted not_after ys -> ys = xs)).
Proof.
  split.
  - intros ->. apply sorter_nil.
  - intros Hlo Hhi.
    destruct (sorter_returns candidates limit candidates w answers_decisive
                (incl_refl _) Hlo Hhi) as (xs & w' & E).
    exists xs, w'. pose proof (sorter_permutation _ _ _ _ _ E) as Hp.
    pose proof (sorter_sorted _ _ _ _ _ (incl_refl _) E) as Hs.
    repeat split; auto.
    intros ys Hy Sy. symmetry. apply sorted_permutation_unique; auto.
    + apply (incl_permutation _ _ _ Hp), incl_refl.
    + rewrite <- Hp. exact Hy.
Qed.

(** C9: under a consistent decision source the sort of a non-empty list
    returns a list that, fed back in from any world (so for any shuffles in
    the two runs), is returned unchanged.  On the empty list the first run
    already ends in [RecursionError]. *)
Theorem head_to_head_sorter_idempotent limit w w2 :
  (candidates = [] ->
   exists w', head_to_head_sorter limit candidates w = Raised RecursionError w') /\
  (1 <= length candidates -> length candidates <= 2 ^ limit ->
   exists xs w1 w3,
     head_to_head_sorter (S limit) candidates w = Returned xs w1 /\
     head_to_head_sorter (S limit) xs w2 = Returned xs w3).
Proof.
  split.
  - intros ->. apply sorter_nil.
  - intros Hlo Hhi.
    destruct (sorter_returns candidates limit candidates w answers_decisive
                (incl_refl _) Hlo Hhi) as (xs & w1 & E1).
    pose proof (sorter_permutation _ _ _ _ _ E1) as Hp.
    assert (Hin : incl xs candidates)
      by (apply (incl_permutation _ _ _ Hp), incl_refl).
    assert (Hlen : length xs = length candidates)
      by (symmetry; apply Permutation_length, Hp).
    destruct (sorter_returns candidates limit xs w2 answers_decisive Hin)
      as (ys & w3 & E2); try lia.
    assert (xs = ys) as <-.
    { apply sorted_permutation_unique; auto.
      - apply (sorter_permutation _ _ _ _ _ E2).
      - apply (sorter_sorted _ _ _ _ _ (incl_refl _) E1).
      - apply (sorter_sorted _ _ _ _ _ Hin E2). }
    eauto.
Qed.

End Order.

End Facts.

(** * Scripted decision sources *)

Section Scripted.

Context {RNG : Type}.
Variable shuffle : list Item -> RNG -> list Item * RNG.
Variable enter_fullscreen exit_fullscreen : string.

Local Notation World := (World RNG).
Local Notation written := (written RNG scripted).
Local Notation write := (write RNG scripted).
Local Notation await_choice := (await_choice RNG scripted).
Local Notation input_handler := (input_handler RNG scripted).
Local Notation merge_loop := (merge_loop RNG scripted).
Local Notation merge_with_preference := (merge_with_preference RNG scripted).
Local Notation random_shuffle := (random_shuffle RNG shuffle).
Local Notation head_to_head_sorter := (head_to_head_sorter RNG shuffle scripted).
Local Notation main := (main RNG shuffle scripted).
Local Notation script := (script RNG shuffle scripted enter_fullscreen exit_fullscreen).
Local Notation bind := (bind RNG).
Local Notation ret := (ret RNG).

Lemma follows_script_ret {A} (a : A) : follows_script (ret a).
Proof. intros w extra. reflexivity. Qed.

Lemma follows_script_raise {A} e : follows_script (@raise RNG A e).
Proof. intros w extra. reflexivity. Qed.

Lemma follows_script_write s : follows_script (write s).
Proof. intros w extra. reflexivity. Qed.

Lemma follows_script_shuffle items : follows_script (random_shuffle items).
Proof.
  intros w extra. unfold random_shuffle. simpl.
  destruct (shuffle items (rng w)). reflexivity.
Qed.

Lemma follows_script_bind {A B} (c : M RNG A) (k : A -> M RNG B) :
  follows_script c -> (forall a, follows_script (k a)) ->
  follows_script (bind c k).
Proof.
  intros Hc Hk w extra. specialize (Hc w extra). unfold bind.
  destruct (c w) as [a w1|e w1|wb|w1].
  - rewrite Hc. apply Hk.
  - rewrite Hc. reflexivity.
  - destruct Hc as [Hkeys Hc]. split; [exact Hkeys|].
    intros q rest -> Hq. rewrite (Hc q rest eq_refl Hq). reflexivity.
  - rewrite Hc. reflexivity.
Qed.

Lemma follows_script_await :
  follows_script (fun w => await_choice (keys w) w).
Proof.
  intros w extra. remember (keys w) as ks eqn:Hks.
  simpl. rewrite <- Hks. revert w Hks.
  induction ks as [|key ks IH]; intros w Hks.
  - simpl. split; [auto|]. intros q rest -> Hq.
    unfold signal in Hq. simpl.
    destruct (name_is q "KEY_LEFT"); [discriminate|].
    destruct (name_is q "KEY_RIGHT"); [discriminate|].
    destruct (lower (text q) =? "q")%string; [reflexivity|discriminate].
  - simpl app. rewrite !(await_choice_cons scripted).
    destruct (signal key) eqn:Hkey;
      try (unfold respond; rewrite Hkey; reflexivity).
    apply (IH (with_keys ks w)). reflexivity.
Qed.

Lemma follows_script_input_handler i j : follows_script (input_handler i j).
Proof.
  apply follows_script_bind; [apply follows_script_write|].
  intros _. apply follows_script_await.
Qed.

Lemma follows_script_merge_loop budget left right : forall i j result,
  follows_script (merge_loop budget left right i j result).
Proof.
  induction budget as [|budget IH]; intros i j result.
  - intros w extra. reflexivity.
  - simpl. destruct ((i <? length left) && (j <? length right)).
    + apply follows_script_bind; [apply follows_script_input_handler|].
      intros choice. destruct (choice =? "left")%string; [apply IH|].
      destruct (choice =? "right")%string; apply IH.
    + apply follows_script_ret.
Qed.

Lemma follows_script_sorter limit : forall items,
  follows_script (head_to_head_sorter limit items).
Proof.
  induction limit as [|limit IH]; intros items.
  - apply follows_script_raise.
  - simpl. destruct (length items =? 1); [apply follows_script_ret|].
    apply follows_script_bind; [apply follows_script_shuffle|]. intros shuffled.
    apply follows_script_bind; [apply IH|]. intros lhs.
    apply follows_script_bind; [apply IH|]. intros rhs.
    apply follows_script_merge_loop.
Qed.

Lemma sorter_cancelled limit items w wb q rest :
  signal q = Cancel ->
  head_to_head_sorter limit items w = Blocked wb ->
  head_to_head_sorter limit items (type_more (q :: rest) w) =
  Raised (SystemExit None) (written ("q" ++ newline)%string (with_keys rest wb)).
Proof.
  intros Hq E. pose proof (follows_script_sorter limit items w (q :: rest)) as H.
  rewrite E in H. destruct H as [_ H]. exact (H q rest eq_refl Hq).
Qed.

(** C6, as the code has it: a [q] typed at the comparison the sort is
    waiting at makes the script end with [SystemExit] and no exit code, that
    is with exit status 0, the status of a run that completes.  On that path
    the screen holds the comparisons made, the echoed [q] and the two
    full-screen strings, so no ranking is printed; no file is written and
    the keystrokes after the [q] are not read. *)
Theorem cancel_exits_with_status_zero limit items w wb q rest :
  signal q = Cancel ->
  head_to_head_sorter limit items (written enter_fullscreen w) = Blocked wb ->
  (exists lines,
      script limit items (type_more (q :: rest) w) =
      Raised (SystemExit None)
             (mkWorld rest
                      (stdout w ++ [enter_fullscreen] ++ lines ++ [exit_fullscreen])
                      (stdin w) (files w) (rng wb)) /\
      Forall comparison_line lines) /\
  exit_status (script limit items (type_more (q :: rest) w)) = Some 0%Z /\
  (forall w0 u w',
      script limit items w0 = Returned u w' ->
      exit_status (script limit items w0) = Some 0%Z).
Proof.
  intros Hq E.
  pose proof (sorter_cancelled limit items _ wb q rest Hq E) as Hc.
  destruct (only_compares_sorter shuffle scripted limit items (written enter_fullscreen w))
    as (lines & Ho & Hl & Hs & Hf).
  rewrite E in Ho, Hs, Hf. simpl in Ho, Hs, Hf.
  assert (Hrun : script limit items (type_more (q :: rest) w) =
                 Raised (SystemExit None)
                        (mkWorld rest
                                 (stdout w ++ [enter_fullscreen] ++
                                  (lines ++ [("q" ++ newline)%string]) ++ [exit_fullscreen])
                                 (stdin w) (files w) (rng wb))).
  { unfold script, main, bind at 1.
    change (write enter_fullscreen (type_more (q :: rest) w))
      with (Returned tt (type_more (q :: rest) (written enter_fullscreen w))).
    cbv iota beta. unfold bind at 1. rewrite Hc.
    destruct wb as [kb ob ib fb gb]. simpl in Ho, Hs, Hf. subst ob ib fb.
    cbv [bind write raise written with_keys scripted]. simpl.
    rewrite <- !app_assoc. reflexivity. }
  split; [|split].
  - eexists. split; [exact Hrun|].
    apply Forall_app. split; [exact Hl|].
    apply Forall_cons; [|apply Forall_nil]. unfold comparison_line. auto.
  - rewrite Hrun. reflexivity.
  - intros w0 u w' ->. reflexivity.
Qed.

End Scripted.

(** C5: a [q] typed at whichever comparison the sort is waiting at ends the
    whole sort there: [SystemExit] is raised and no list is returned; the
    world is the one of that comparison with the [q] echoed, so nothing else
    is written, and the keystrokes planned after the [q] are left unread, so
    no further comparison is made.  And with any operator, a sort that ends
    in [SystemExit] ends in the world in which a call of [input_handler] was
    cancelled. *)
Theorem cancel_aborts_sort {RNG} (shuffle : list Item -> RNG -> list Item * RNG)
        limit items (w wb : World RNG) q rest :
  signal q = Cancel ->
  head_to_head_sorter RNG shuffle scripted limit items w = Blocked wb ->
  head_to_head_sorter RNG shuffle scripted limit items (type_more (q :: rest) w) =
  Raised (SystemExit None)
         (written RNG scripted ("q" ++ newline)%string (with_keys rest wb)) /\
  (forall operator limit' items' w1 code w',
      head_to_head_sorter RNG shuffle operator limit' items' w1 =
      Raised (SystemExit code) w' ->
      code = None /\
      exists i j w0,
        input_handler RNG operator i j w0 = Raised (SystemExit None) w').
Proof.
  intros Hq E. split; [apply sorter_cancelled; assumption|].
  intros operator limit' items' w1 code w' E'.
  destruct (exits_at_gateway_sorter shuffle operator limit' items' w1 _ _ E')
    as [H|[H1 H2]]; [discriminate|].
  inversion H1. auto.
Qed.

(** * The stand-ins for the shuffle and the operator *)

Lemma rotate_permutes items g : Permutation items (fst (rotate items g)).
Proof.
  unfold rotate. simpl.
  rewrite <- (firstn_skipn (g mod S (length items)) items) at 1.
  apply Permutation_app_comm.
Qed.

(** An operator who presses an arrow at every prompt settles every
    comparison. *)
Lemma answering_decisive {RNG} d among :
  (forall k, decides (d k) = true) -> decisive RNG (answering d) among.
Proof.
  intros Hd i j w _ _. rewrite input_handler_unfold. simpl keys. unfold answering.
  rewrite await_choice_cons. unfold respond.
  specialize (Hd (length (stdout w ++ [prompt_text i j]) / 2)).
  unfold decides in Hd.
  destruct (signal (d _)); try discriminate; eauto.
Qed.

(** The judge answers the prompt for two candidates by [precedes], provided
    the prompt reads as this pair and no other. *)
Lemma judge_prompt precedes candidates i j screen pending :
  find (fun p => (prompt_text (fst p) (snd p) =? prompt_text i j)%string)
       (list_prod candidates candidates) = Some (i, j) ->
  judge precedes candidates (screen ++ [prompt_text i j]) pending =
  [if precedes i j then left_arrow else right_arrow].
Proof.
  intros Hf. unfold judge. rewrite last_last, Hf. reflexivity.
Qed.

Lemma judge_input_handler {RNG} precedes candidates i j (w : World RNG) :
  find (fun p => (prompt_text (fst p) (snd p) =? prompt_text i j)%string)
       (list_prod candidates candidates) = Some (i, j) ->
  exists w',
    input_handler RNG (judge precedes candidates) i j w =
    Returned (if precedes i j then "left" else "right")%string w'.
Proof.
  intros Hf. rewrite input_handler_unfold.
  unfold written at 1. cbn [keys].
  rewrite (judge_prompt _ _ _ _ _ _ Hf), await_choice_cons.
  destruct (precedes i j); unfold respond; simpl; eauto.
Qed.

Lemma alphabetical_irrefl a :
  In a fruit -> ~ alphabetical a a = true.
Proof.
  intros Ha. simpl in Ha.
  destruct Ha as [<-|[<-|[<-|[]]]]; vm_compute; discriminate.
Qed.

Lemma alphabetical_trans a b c :
  In a fruit -> In b fruit -> In c fruit ->
  alphabetical a b = true -> alphabetical b c = true -> alphabetical a c = true.
Proof.
  intros Ha Hb Hc. simpl in Ha, Hb, Hc.
  destruct Ha as [<-|[<-|[<-|[]]]]; destruct Hb as [<-|[<-|[<-|[]]]];
    destruct Hc as [<-|[<-|[<-|[]]]]; vm_compute; congruence.
Qed.

Lemma alphabetical_total a b :
  In a fruit -> In b fruit ->
  alphabetical a b = true \/ a = b \/ alphabetical b a = true.
Proof.
  intros Ha Hb. simpl in Ha, Hb.
  destruct Ha as [<-|[<-|[<-|[]]]]; destruct Hb as [<-|[<-|[<-|[]]]];
    first [left; reflexivity | right; left; reflexivity | right; right; reflexivity].
Qed.

Lemma judge_answers_alphabetically i j (w : World nat) :
  In i fruit -> In j fruit ->
  exists choice w',
    input_handler nat (judge alphabetical fruit) i j w = Returned choice w' /\
    (choice = "left"%string <-> alphabetical i j = true).
Proof.
  intros Hi Hj. simpl in Hi, Hj.
  destruct Hi as [<-|[<-|[<-|[]]]]; destruct Hj as [<-|[<-|[<-|[]]]];
    match goal with |- context [input_handler _ _ ?i ?j _] =>
      destruct (judge_input_handler alphabetical fruit i j w eq_refl) as (w1 & E1)
    end;
    eexists; exists w1; (split; [exact E1|]); vm_compute; split; congruence.
Qed.

(** * The claims on sample runs *)

(** A run on [fruit] with three answers and a stray key in between. *)
Lemma head_to_head_sorter_permutes_witness :
  (exists w',
      head_to_head_sorter nat rotate scripted 3 fruit
        (fresh [left_arrow; right_arrow; letter "x"; left_arrow]) =
      Returned ["cherry"; "banana"; "apple"]%string w') /\
  Permutation fruit ["cherry"; "banana"; "apple"]%string /\
  length ["cherry"; "banana"; "apple"]%string = length fruit /\
  (forall x, count_occ string_dec ["cherry"; "banana"; "apple"]%string x =
             count_occ string_dec fruit x).
Proof.
  split.
  - eexists. vm_compute. reflexivity.
  - eapply (head_to_head_sorter_permutes rotate scripted rotate_permutes 3 fruit
              (fresh [left_arrow; right_arrow; letter "x"; left_arrow])).
    vm_compute. reflexivity.
Defined.

(** The empty list ends in [RecursionError] whoever judges; [fruit] judged
    alphabetically comes back as apple, banana, cherry. *)
Lemma head_to_head_sorter_sorts_witness :
  (exists w',
      head_to_head_sorter nat rotate (judge alphabetical []) 1000 [] (fresh []) =
      Raised RecursionError w') /\
  1 <= length fruit /\ length fruit <= 2 ^ 2 /\
  exists xs w',
    head_to_head_sorter nat rotate (judge alphabetical fruit) 3 fruit (fresh []) =
    Returned xs w' /\
    Permutation fruit xs /\
    StronglySorted (not_after (fun a b => alphabetical a b = true)) xs /\
    (forall ys,
        Permutation fruit ys ->
        StronglySorted (not_after (fun a b => alphabetical a b = true)) ys ->
        ys = xs).
Proof.
  assert (Hlo : 1 <= length fruit) by (simpl; lia).
  assert (Hhi : length fruit <= 2 ^ 2) by (simpl; lia).
  split.
  { refine (proj1 (head_to_head_sorter_sorts rotate (judge alphabetical [])
                     rotate_permutes [] (fun a b => alphabetical a b = true)
                     _ _ _ _ 1000 (fresh [])) eq_refl);
      simpl; intros; contradiction. }
  split; [exact Hlo|]. split; [exact Hhi|].
  exact (proj2 (head_to_head_sorter_sorts rotate (judge alphabetical fruit)
                  rotate_permutes fruit (fun a b => alphabetical a b = true)
                  alphabetical_irrefl alphabetical_trans alphabetical_total
                  judge_answers_alphabetically 2 (fresh []))
               Hlo Hhi).
Defined.

(** On the empty list the first run ends in [RecursionError]; the sorted
    [fruit], fed back in with another generator state, comes back as it is. *)
Lemma head_to_head_sorter_idempotent_witness :
  (exists w',
      head_to_head_sorter nat rotate (judge alphabetical []) 1000 []
        (fresh [left_arrow]) = Raised RecursionError w') /\
  1 <= length fruit /\ length fruit <= 2 ^ 2 /\
  exists xs w1 w3,
    head_to_head_sorter nat rotate (judge alphabetical fruit) 3 fruit (fresh []) =
    Returned xs w1 /\
    head_to_head_sorter nat rotate (judge alphabetical fruit) 3 xs
      (mkWorld [] [] [] [] 7) = Returned xs w3.
Proof.
  assert (Hlo : 1 <= length fruit) by (simpl; lia).
  assert (Hhi : length fruit <= 2 ^ 2) by (simpl; lia).
  split.
  { refine (proj1 (head_to_head_sorter_idempotent rotate (judge alphabetical [])
                     rotate_permutes [] (fun a b => alphabetical a b = true)
                     _ _ _ _ 1000 (fresh [left_arrow]) (fresh [])) eq_refl);
      simpl; intros; contradiction. }
  split; [exact Hlo|]. split; [exact Hhi|].
  exact (proj2 (head_to_head_sorter_idempotent rotate (judge alphabetical fruit)
                  rotate_permutes fruit (fun a b => alphabetical a b = true)
                  alphabetical_irrefl alphabetical_trans alphabetical_total
                  judge_answers_alphabetically 2 (fresh []) (mkWorld [] [] [] [] 7))
               Hlo Hhi).
Defined.

(** The empty list under the default recursion limit of the interpreter. *)
Lemma head_to_head_sorter_empty_list_witness :
  exists w',
    head_to_head_sorter nat rotate scripted 1000 [] (fresh [left_arrow]) =
    Raised RecursionError w'.
Proof.
  exact (head_to_head_sorter_empty_list rotate scripted rotate_permutes 1000
           (fresh [left_arrow])).
Defined.

(** [fruit] with the arrows pressed in turn. *)
Lemma head_to_head_sorter_terminates_witness :
  decisive nat (answering alternating) fruit /\
  1 <= length fruit /\
  length fruit <= 2 ^ 2 /\
  exists xs w',
    head_to_head_sorter nat rotate (answering alternating) 3 fruit (fresh []) =
    Returned xs w'.
Proof.
  assert (Hd : decisive nat (answering alternating) fruit).
  { apply answering_decisive. intros k. unfold alternating.
    destruct (Nat.even k); reflexivity. }
  assert (Hlo : 1 <= length fruit) by (simpl; lia).
  assert (Hhi : length fruit <= 2 ^ 2) by (simpl; lia).
  repeat split; auto.
  exact (proj1 (head_to_head_sorter_terminates rotate (answering alternating)
                  rotate_permutes 2 fruit (fresh []) Hd Hlo Hhi)).
Defined.

(** A stray key, then the right arrow, then keys that are never read. *)
Lemma input_handler_first_recognized_witness :
  (exists w',
      input_handler nat scripted "a" "b"
        (fresh [letter "x"; right_arrow; letter "q"; left_arrow]) =
      Returned "right"%string w') /\
  exists key,
    find decides [letter "x"; right_arrow; letter "q"; left_arrow] = Some key /\
    signal key = PreferRight.
Proof.
  split.
  - eexists. vm_compute. reflexivity.
  - destruct (input_handler_first_recognized (RNG := nat) scripted "a" "b"
                (fresh [letter "x"; right_arrow; letter "q"; left_arrow]))
      as [_ H].
    destruct (H "right"%string _ eq_refl) as (_ & key & Hf & _ & Hr).
    exists key. split; [exact Hf|]. apply Hr. reflexivity.
Defined.

(** C4 as stated fails: with left = ['a'] and right = ['b', 'c'], one left
    arrow completes the merge after a single comparison, not two. *)
Lemma merge_with_preference_one_comparison :
  exists w',
    merge_with_preference nat scripted ["a"]%string ["b"; "c"]%string
      (fresh [left_arrow]) = Returned ["a"; "b"; "c"]%string w' /\
    comparisons (fresh [left_arrow]) w' = 1 /\
    comparisons (fresh [left_arrow]) w' <>
    length ["a"]%string + length ["b"; "c"]%string - 1.
Proof.
  eexists. split; [vm_compute; reflexivity|]. split; [reflexivity|].
  vm_compute. discriminate.
Defined.

(** The same merge within the bounds: between one and two comparisons. *)
Lemma merge_with_preference_comparisons_witness :
  (exists xs w',
      merge_with_preference nat scripted ["a"]%string ["b"; "c"]%string
        (fresh [left_arrow]) = Returned xs w' /\
      Nat.min 1 2 <= comparisons (fresh [left_arrow]) w' /\
      comparisons (fresh [left_arrow]) w' + 1 <= 1 + 2).
Proof.
  eexists. eexists. split; [vm_compute; reflexivity|].
  apply (merge_with_preference_comparisons scripted ["a"]%string ["b"; "c"]%string
           (fresh [left_arrow]) _ _ eq_refl); discriminate.
Defined.

(** [Q] typed at the second comparison of [fruit]; the right arrow after it
    is left unread. *)
Lemma cancel_aborts_sort_witness :
  signal (letter "Q") = Cancel /\
  head_to_head_sorter nat rotate scripted 3 fruit (fresh [left_arrow]) =
  Blocked (second_comparison []) /\
  head_to_head_sorter nat rotate scripted 3 fruit
    (fresh [left_arrow; letter "Q"; right_arrow]) =
  Raised (SystemExit None)
         (mkWorld [right_arrow]
                  (stdout (second_comparison []) ++ [("q" ++ newline)%string])
                  [] [] 2).
Proof.
  split; [reflexivity|]. split; [reflexivity|].
  exact (proj1 (cancel_aborts_sort rotate 3 fruit (fresh [left_arrow])
                  (second_comparison []) (letter "Q") [right_arrow]
                  eq_refl eq_refl)).
Defined.

(** C6 as stated fails: the run cancelled at its second comparison ends with
    exit status 0, the status of the run that completes. *)
Lemma cancelled_run_exit_status :
  (exists w', cancelled_run = Raised (SystemExit None) w') /\
  exit_status cancelled_run = Some 0%Z /\
  exit_status completed_run = Some 0%Z /\
  ~ (exists n, exit_status cancelled_run = Some n /\ n <> 0%Z).
Proof.
  split; [eexists; vm_compute; reflexivity|].
  split; [reflexivity|]. split; [reflexivity|].
  intros (n & E & Hn). vm_compute in E. congruence.
Defined.

(** The cancelled run of the script, from the comparison it was waiting at. *)
Lemma cancel_exits_with_status_zero_witness :
  signal (letter "Q") = Cancel /\
  head_to_head_sorter nat rotate scripted 3 fruit
    (written nat scripted "[enter]" (fresh [left_arrow])) =
  Blocked (second_comparison ["[enter]"%string]) /\
  exit_status cancelled_run = Some 0%Z.
Proof.
  split; [reflexivity|]. split; [reflexivity|].
  exact (proj1 (proj2 (cancel_exits_with_status_zero rotate "[enter]" "[exit]" 3
                         fruit (fresh [left_arrow])
                         (second_comparison ["[enter]"%string])
                         (letter "Q") [right_arrow] eq_refl eq_refl))).
Defined.

(** * Further properties of the merge and the sorter *)

Section Further.

Context {RNG : Type}.
Variable shuffle : list Item -> RNG -> list Item * RNG.
Variable operator : Operator.

Local Notation World := (World RNG).
Local Notation input_handler := (input_handler RNG operator).
Local Notation merge_with_preference := (merge_with_preference RNG operator).
Local Notation head_to_head_sorter := (head_to_head_sorter RNG shuffle operator).
Local Notation merge_run := (merge_run RNG operator).

Lemma Interleave_all_left l : Interleave l [] l.
Proof. induction l; constructor; assumption. Qed.

Lemma Interleave_all_right r : Interleave [] r r.
Proof. induction r; constructor; assumption. Qed.

Lemma merge_run_interleave left right i j result w xs w' :
  merge_run left right i j result w (Returned xs w') ->
  exists tail,
    xs = result ++ tail /\ Interleave (skipn i left) (skipn j right) tail.
Proof.
  intros H. remember (Returned xs w') as o eqn:Ho.
  induction H as [i j result w Hr|i j result w w1 o Hi Hj E H IH
                  |i j result w w1 o Hi Hj E H IH| |]; try discriminate.
  - inversion Ho. exists (skipn i left ++ skipn j right). split; [reflexivity|].
    apply andb_false_iff in Hr. destruct Hr as [Hr|Hr]; apply Nat.ltb_ge in Hr.
    + rewrite (skipn_all2 left) by exact Hr. apply Interleave_all_right.
    + rewrite (skipn_all2 right) by exact Hr. rewrite app_nil_r.
      apply Interleave_all_left.
  - destruct (IH Ho) as (tail & -> & Hi').
    exists (item_at left i :: tail). rewrite <- app_assoc. split; [reflexivity|].
    rewrite (skipn_item_at left i Hi). constructor.
    rewrite Nat.add_1_r in Hi'. exact Hi'.
  - destruct (IH Ho) as (tail & -> & Hi').
    exists (item_at right j :: tail). rewrite <- app_assoc. split; [reflexivity|].
    rewrite (skipn_item_at right j Hj). constructor.
    rewrite Nat.add_1_r in Hi'. exact Hi'.
Qed.

(** X1: a merge that returns deals its two lists into one: the items of
    [left] keep their order in the result and so do the items of [right],
    whatever the answers are. *)
Theorem merge_with_preference_interleaves left right w xs w' :
  merge_with_preference left right w = Returned xs w' ->
  Interleave left right xs.
Proof.
  intros E. pose proof (merge_with_preference_run operator left right w) as H.
  rewrite E in H. apply merge_run_interleave in H.
  destruct H as (tail & -> & H). exact H.
Qed.

Hypothesis shuffle_permutes :
  forall items g, Permutation items (fst (shuffle items g)).

Lemma sorter_returned_nonempty limit items w xs w' :
  head_to_head_sorter limit items w = Returned xs w' -> 1 <= length items.
Proof.
  intros E. destruct items as [|x items]; [|simpl; lia].
  destruct (sorter_nil shuffle operator shuffle_permutes limit w) as (w1 & E1).
  congruence.
Qed.

Lemma sorter_writes limit : forall d items w xs w',
  length items <= 2 ^ d ->
  head_to_head_sorter limit items w = Returned xs w' ->
  exists c,
    length (stdout w') = length (stdout w) + 2 * c /\
    length items - 1 <= c /\ c <= length items * d.
Proof.
  induction limit as [|limit IH]; intros d items w xs w' Hd E; [discriminate|].
  pose proof (sorter_returned_nonempty _ _ _ _ _ E) as Hn.
  rewrite head_to_head_sorter_step in E.
  destruct (length items =? 1) eqn:E1.
  - inversion E; subst. apply Nat.eqb_eq in E1. exists 0. lia.
  - apply Nat.eqb_neq in E1. cbv zeta in E.
    set (shuffled := fst (shuffle items (rng w))) in *.
    assert (Hlen : length shuffled = length items)
      by (symmetry; apply Permutation_length, shuffle_permutes).
    destruct (head_to_head_sorter limit (firstn _ shuffled) _)
      as [lhs w2| | |] eqn:El; try discriminate.
    destruct (head_to_head_sorter limit (skipn _ shuffled) _)
      as [rhs w3| | |] eqn:Er; try discriminate.
    destruct d as [|d]; [simpl in Hd; lia|].
    destruct (half_bounds (length shuffled)) as (H1 & H2 & H3 & H4); [lia|].
    destruct (half_pow (length shuffled) d) as (H5 & H6); [lia|].
    pose proof (Permutation_length (sorter_permutation _ _ shuffle_permutes _ _ _ _ _ El)) as Ll.
    pose proof (Permutation_length (sorter_permutation _ _ shuffle_permutes _ _ _ _ _ Er)) as Lr.
    rewrite length_firstn in Ll. rewrite length_skipn in Lr.
    assert (Dl : length (firstn (length shuffled / 2) shuffled) <= 2 ^ d)
      by (rewrite length_firstn; lia).
    assert (Dr : length (skipn (length shuffled / 2) shuffled) <= 2 ^ d)
      by (rewrite length_skipn; lia).
    destruct (IH d _ _ _ _ Dl El) as (cl & Wl & Bl1 & Bl2).
    destruct (IH d _ _ _ _ Dr Er) as (cr & Wr & Br1 & Br2).
    rewrite length_firstn in Bl1, Bl2. rewrite length_skipn in Br1, Br2.
    pose proof (merge_with_preference_run operator lhs rhs w3) as Hm.
    rewrite E in Hm. apply merge_run_writes in Hm.
    destruct Hm as (cm & Wm & _ & Bm).
    destruct Bm as [Bm1 Bm2]; try lia.
    simpl stdout in Wl.
    exists (cl + cr + cm). split; [lia|]. split; [lia|].
    rewrite Nat.mul_succ_r.
    assert (cl + cr <= length items * d); [|lia].
    replace (length items) with
      (Nat.min (length shuffled / 2) (length shuffled) +
       (length shuffled - length shuffled / 2)) by lia.
    rewrite Nat.mul_add_distr_r. lia.
Qed.

(** X3: a sort of [n] items that returns has put at least [n - 1]
    comparisons to the operator and at most [n * d], for any [d] with
    [n <= 2 ^ d], whatever the shuffles and the answers. *)
Theorem head_to_head_sorter_comparisons limit d items w xs w' :
  length items <= 2 ^ d ->
  head_to_head_sorter limit items w = Returned xs w' ->
  length items - 1 <= comparisons w w' /\
  comparisons w w' <= length items * d.
Proof.
  intros Hd E. destruct (sorter_writes limit d items w xs w' Hd E) as (c & W & B).
  assert (Hc : comparisons w w' = c).
  { unfold comparisons. rewrite W.
    replace (length (stdout w) + 2 * c - length (stdout w)) with (c * 2) by lia.
    apply Nat.div_mul. discriminate. }
  rewrite Hc. exact B.
Qed.

End Further.

(** * Further properties of the screen and the files *)

Section Screen.

Context {RNG : Type}.
Variable shuffle : list Item -> RNG -> list Item * RNG.
Variable operator : Operator.
Variable enter_fullscreen exit_fullscreen : string.

Local Notation World := (World RNG).
Local Notation written := (written RNG operator).
Local Notation input_handler := (input_handler RNG operator).
Local Notation await_choice := (await_choice RNG operator).
Local Notation merge_with_preference := (merge_with_preference RNG operator).
Local Notation head_to_head_sorter := (head_to_head_sorter RNG shuffle operator).
Local Notation merge_run := (merge_run RNG operator).
Local Notation print_ranking := (print_ranking RNG operator).
Local Notation await_save := (await_save RNG operator).
Local Notation main := (main RNG shuffle operator).
Local Notation script :=
  (script RNG shuffle operator enter_fullscreen exit_fullscreen).

Hypothesis shuffle_permutes :
  forall items g, Permutation items (fst (shuffle items g)).

Lemma comparison_among_incl items items' s :
  incl items items' -> comparison_among items s -> comparison_among items' s.
Proof.
  intros Hin [(i & j & Hi & Hj & ->)|H]; [left|right; exact H].
  exists i, j. auto.
Qed.

Lemma Forall_comparison_among_incl items items' lines :
  incl items items' ->
  Forall (comparison_among items) lines -> Forall (comparison_among items') lines.
Proof.
  intros Hin. apply Forall_impl. intros s. apply comparison_among_incl, Hin.
Qed.

Lemma input_handler_asks i j w :
  exists lines,
    stdout (outcome_world (input_handler i j w)) = stdout w ++ lines /\
    Forall (comparison_among [i; j]) lines /\
    stdin (outcome_world (input_handler i j w)) = stdin w /\
    files (outcome_world (input_handler i j w)) = files w.
Proof.
  assert (P : comparison_among [i; j] (prompt_text i j)).
  { left. exists i, j. simpl. auto. }
  destruct (input_handler_handled operator i j w)
    as [w' (Ho & Hs & Hf & _)|w' (Ho & Hs & Hf & _)
        |w' (Ho & Hs & Hf & _)|w' (Ho & Hs & Hf & _) _];
    simpl; eexists; (split; [exact Ho|]); (split; [|split; assumption]);
    repeat first [apply Forall_nil | apply Forall_cons]; try exact P;
    unfold comparison_among; auto.
Qed.

Lemma merge_run_asks left right i j result w o :
  merge_run left right i j result w o ->
  exists lines,
    stdout (outcome_world o) = stdout w ++ lines /\
    Forall (comparison_among (left ++ right)) lines /\
    stdin (outcome_world o) = stdin w /\
    files (outcome_world o) = files w.
Proof.
  assert (Hpair : forall i j, i < length left -> j < length right ->
                  incl [item_at left i; item_at right j] (left ++ right)).
  { intros a b Ha Hb x [<-|[<-|[]]]; apply in_or_app;
      [left|right]; apply item_at_In; assumption. }
  intros H.
  induction H as [i j result w Hr|i j result w w1 o Hi Hj E H IH
                  |i j result w w1 o Hi Hj E H IH
                  |i j result w e w1 Hi Hj E|i j result w w1 Hi Hj E].
  - exists []. simpl. rewrite app_nil_r. auto.
  - destruct (input_handler_asks (item_at left i) (item_at right j) w)
      as (l1 & H1 & F1 & S1 & G1).
    rewrite E in H1, S1, G1. simpl in H1, S1, G1.
    destruct IH as (l2 & H2 & F2 & S2 & G2).
    exists (l1 ++ l2). rewrite H2, H1, S2, S1, G2, G1, app_assoc.
    repeat split; auto. apply Forall_app. split; [|exact F2].
    apply (Forall_comparison_among_incl _ _ _ (Hpair i j Hi Hj) F1).
  - destruct (input_handler_asks (item_at left i) (item_at right j) w)
      as (l1 & H1 & F1 & S1 & G1).
    rewrite E in H1, S1, G1. simpl in H1, S1, G1.
    destruct IH as (l2 & H2 & F2 & S2 & G2).
    exists (l1 ++ l2). rewrite H2, H1, S2, S1, G2, G1, app_assoc.
    repeat split; auto. apply Forall_app. split; [|exact F2].
    apply (Forall_comparison_among_incl _ _ _ (Hpair i j Hi Hj) F1).
  - destruct (input_handler_asks (item_at left i) (item_at right j) w)
      as (l1 & H1 & F1 & S1 & G1).
    rewrite E in H1, S1, G1. exists l1. repeat split; auto.
    apply (Forall_comparison_among_incl _ _ _ (Hpair i j Hi Hj) F1).
  - destruct (input_handler_asks (item_at left i) (item_at right j) w)
      as (l1 & H1 & F1 & S1 & G1).
    rewrite E in H1, S1, G1. exists l1. repeat split; auto.
    apply (Forall_comparison_among_incl _ _ _ (Hpair i j Hi Hj) F1).
Qed.

Lemma sorter_asks limit : forall items w,
  exists lines,
    stdout (outcome_world (head_to_head_sorter limit items w)) = stdout w ++ lines /\
    Forall (comparison_among items) lines /\
    stdin (outcome_world (head_to_head_sorter limit items w)) = stdin w /\
    files (outcome_world (head_to_head_sorter limit items w)) = files w.
Proof.
  induction limit as [|limit IH]; intros items w.
  - exists []. simpl. rewrite app_nil_r. auto.
  - rewrite head_to_head_sorter_step.
    destruct (length items =? 1).
    { exists []. simpl. rewrite app_nil_r. auto. }
    cbv zeta. set (shuffled := fst (shuffle items (rng w))).
    set (w1 := mkWorld (keys w) (stdout w) (stdin w) (files w)
                       (snd (shuffle items (rng w)))).
    assert (Hs : incl shuffled items).
    { intros x Hx.
      apply (Permutation_in x (Permutation_sym (shuffle_permutes items (rng w)))).
      exact Hx. }
    assert (Hl : incl (firstn (length shuffled / 2) shuffled) items).
    { intros x Hx. apply Hs. rewrite <- (firstn_skipn (length shuffled / 2)).
      apply in_or_app. auto. }
    assert (Hr : incl (skipn (length shuffled / 2) shuffled) items).
    { intros x Hx. apply Hs. rewrite <- (firstn_skipn (length shuffled / 2)).
      apply in_or_app. auto. }
    destruct (IH (firstn (length shuffled / 2) shuffled) w1)
      as (l1 & H1 & F1 & S1 & G1).
    apply (Forall_comparison_among_incl _ _ _ Hl) in F1.
    unfold w1 in *. clear w1. simpl stdout in H1. simpl stdin in S1. simpl files in G1.
    destruct (head_to_head_sorter limit (firstn _ shuffled) _)
      as [lhs w2|e w2|w2|w2] eqn:El; simpl in H1, S1, G1;
      [|exists l1; repeat split; assumption..].
    destruct (IH (skipn (length shuffled / 2) shuffled) w2)
      as (l2 & H2 & F2 & S2 & G2).
    apply (Forall_comparison_among_incl _ _ _ Hr) in F2.
    assert (F12 : Forall (comparison_among items) (l1 ++ l2))
      by (apply Forall_app; auto).
    destruct (head_to_head_sorter limit (skipn _ shuffled) w2)
      as [rhs w3|e w3|w3|w3] eqn:Er; simpl in H2, S2, G2;
      [|exists (l1 ++ l2); simpl; rewrite H2, H1, S2, S1, G2, G1, app_assoc;
        repeat split; auto..].
    destruct (merge_run_asks _ _ _ _ _ _ _ (merge_with_preference_run operator lhs rhs w3))
      as (l3 & H3 & F3 & S3 & G3).
    exists (l1 ++ l2 ++ l3).
    rewrite H3, H2, H1, S3, S2, S1, G3, G2, G1, <- !app_assoc.
    repeat split; auto. apply Forall_app. split; [exact F1|].
    apply Forall_app. split; [exact F2|].
    apply (Forall_comparison_among_incl (lhs ++ rhs)); [|exact F3].
    intros x Hx. apply in_app_or in Hx. destruct Hx as [Hx|Hx].
    + apply Hl.
      apply (Permutation_in x (Permutation_sym
               (sorter_permutation _ _ shuffle_permutes _ _ _ _ _ El))).
      exact Hx.
    + apply Hr.
      apply (Permutation_in x (Permutation_sym
               (sorter_permutation _ _ shuffle_permutes _ _ _ _ _ Er))).
      exact Hx.
Qed.

(** X4: however a call of the sorter ends, all it has written are prompts
    that set two items of its input against each other and echoes of the
    keys pressed; it has read no line at [input()] and written no file. *)
Theorem head_to_head_sorter_asks_among limit items w :
  exists lines,
    stdout (outcome_world (head_to_head_sorter limit items w)) = stdout w ++ lines /\
    Forall (comparison_among items) lines /\
    stdin (outcome_world (head_to_head_sorter limit items w)) = stdin w /\
    files (outcome_world (head_to_head_sorter limit items w)) = files w.
Proof. apply sorter_asks. Qed.


Lemma sorter_nil_world limit : forall w,
  exists g,
    head_to_head_sorter limit [] w =
    Raised RecursionError (mkWorld (keys w) (stdout w) (stdin w) (files w) g).
Proof.
  induction limit as [|limit IH]; intros w.
  - exists (rng w). destruct w. reflexivity.
  - rewrite head_to_head_sorter_step. simpl length. simpl Nat.eqb. cbv iota zeta.
    assert (E : fst (shuffle [] (rng w)) = [])
      by (apply Permutation_nil, shuffle_permutes).
    rewrite E. simpl firstn.
    match goal with |- context [head_to_head_sorter limit [] ?w1] =>
      destruct (IH w1) as (g & ->)
    end.
    exists g. reflexivity.
Qed.

(** X10: on an empty input file the script asks nothing and prints nothing:
    it enters and leaves the full-screen mode and ends with an uncaught
    [RecursionError], exit status 1, with no file written. *)
Theorem script_empty_file limit w :
  exists w',
    script limit [] w = Raised RecursionError w' /\
    stdout w' = stdout w ++ [enter_fullscreen; exit_fullscreen] /\
    stdin w' = stdin w /\ files w' = files w /\
    exit_status (script limit [] w) = Some 1%Z.
Proof.
  unfold script, main, bind.
  change (write RNG operator enter_fullscreen w)
    with (Returned tt (written enter_fullscreen w)).
  cbv iota beta.
  destruct (sorter_nil_world limit (written enter_fullscreen w)) as (g & ->).
  simpl. eexists. split; [reflexivity|]. simpl.
  rewrite <- app_assoc. auto.
Qed.

Lemma print_ranking_writes sorted_items : forall i w,
  exists w',
    print_ranking i sorted_items w = Returned tt w' /\
    stdout w' = stdout w ++ ranking_lines (i + 1) sorted_items /\
    stdin w' = stdin w /\ files w' = files w /\ rng w' = rng w.
Proof.
  induction sorted_items as [|item rest IH]; intros i w.
  - exists w. simpl. unfold ranking_lines. simpl. rewrite app_nil_r. auto.
  - simpl. unfold bind, print, write.
    destruct (IH (S i) (written ((decimal (i + 1) ++ ". " ++ item) ++ newline)%string w))
      as (w' & E & Ho & Hs & Hf & Hg).
    exists w'. split; [exact E|]. rewrite Ho, Hs, Hf, Hg. simpl.
    rewrite <- app_assoc. auto.
Qed.

Lemma await_save_returned pending sorted_items : forall w u w',
  await_save pending sorted_items w = Returned u w' ->
  (stdout w' = stdout w ++ [("n" ++ newline)%string] /\
   files w' = files w /\ stdin w' = stdin w) \/
  (exists save_filename,
      stdout w' = stdout w ++ [("y" ++ newline)%string; "Enter filename: "%string;
                               (("Sorted list saved to " ++ save_filename) ++ newline)%string] /\
      files w' = (save_filename, map (fun item => (item ++ newline)%string) sorted_items)
                   :: files w /\
      stdin w = save_filename :: stdin w').
Proof.
  induction pending as [|save rest IH]; intros w u w' E; [discriminate|].
  simpl in E. destruct (lower (text save) =? "y")%string.
  - right. cbv [bind print write input write_file written with_keys] in E.
    cbn [stdin stdout files keys rng] in E.
    destruct (stdin w) as [|line lines] eqn:Hin; [discriminate|].
    inversion E; subst. cbn [stdin stdout files keys rng].
    exists line. rewrite <- !app_assoc. repeat split; reflexivity.
  - destruct (lower (text save) =? "n")%string.
    + left. cbv [print write written with_keys] in E.
      cbn [stdin stdout files keys rng] in E.
      inversion E; subst. cbn [stdin stdout files keys rng].
      repeat split; reflexivity.
    + destruct (IH _ _ _ E) as [(Ho & Hf & Hs)|(name & Ho & Hf & Hs)]; [left|right].
      * cbn [with_keys stdin stdout files] in Ho, Hf, Hs. auto.
      * exists name. cbn [with_keys stdin stdout files] in Ho, Hf, Hs. auto.
Qed.

(** X8: when [main] returns, the screen shows the comparisons made, then
    the header and the ranking of a permutation of the input, numbered from
    1, then the save prompt and its answer; and either no file was written, or
    exactly one, under the name typed at [input()], holding the items in the
    order of the ranking, one per line. *)
Theorem main_shows_and_saves limit items w u w' :
  main limit items w = Returned u w' ->
  exists sorted_items asked,
    Permutation items sorted_items /\
    Forall (comparison_among items) asked /\
    let shown :=
      stdout w ++ asked ++
      [((newline ++ "Sorted list:") ++ newline)%string] ++
      ranking_lines 1 sorted_items ++
      [(newline ++ "Save sorted list to file? (y/n): ")%string] in
    (stdout w' = shown ++ [("n" ++ newline)%string] /\
     files w' = files w /\ stdin w' = stdin w) \/
    (exists save_filename,
        stdout w' = shown ++ [("y" ++ newline)%string; "Enter filename: "%string;
                              (("Sorted list saved to " ++ save_filename) ++ newline)%string] /\
        files w' = (save_filename, map (fun item => (item ++ newline)%string) sorted_items)
                     :: files w /\
        stdin w = save_filename :: stdin w').
Proof.
  intros E. unfold main, bind in E.
  destruct (sorter_asks limit items w) as (asked & Ho & Hasked & Hs & Hf).
  destruct (head_to_head_sorter limit items w) as [sorted_items w1| | |] eqn:Es;
    try discriminate.
  simpl in Ho, Hs, Hf.
  exists sorted_items, asked.
  split; [apply (sorter_permutation _ _ shuffle_permutes _ _ _ _ _ Es)|].
  split; [exact Hasked|].
  unfold print at 1, write at 1 in E.
  match type of E with context [print_ranking 0 sorted_items ?w2] =>
    destruct (print_ranking_writes sorted_items 0 w2) as (w3 & Ep & Ho3 & Hs3 & Hf3 & _)
  end.
  rewrite Ep in E. unfold print_noend, write in E.
  apply await_save_returned in E. simpl in E.
  rewrite Ho3, Hs3, Hf3 in E. simpl in E. rewrite Ho, Hs, Hf in E.
  cbv zeta.
  destruct E as [(Ho' & Hf' & Hs')|(name & Ho' & Hf' & Hs')]; [left|right].
  - rewrite Ho', Hf', Hs'. repeat rewrite <- app_assoc.
    repeat split; reflexivity.
  - exists name. rewrite Ho', Hf', Hs'. repeat rewrite <- app_assoc.
    repeat split; reflexivity.
Qed.




Lemma lower_is_q s :
  lower s = "q"%string <-> s = "q"%string \/ s = "Q"%string.
Proof.
  destruct s as [|c [|c' s']].
  - simpl. split; [discriminate|intros [H|H]; discriminate H].
  - destruct c as [[] [] [] [] [] [] [] []]; vm_compute; split; intros H;
      try discriminate H; try (destruct H as [H|H]; discriminate H); auto.
  - simpl. split; [discriminate|intros [H|H]; discriminate H].
Qed.

Lemma name_is_false key s : name_is key s = false <-> name key <> Some s.
Proof.
  unfold name_is. destruct (name key) as [n|].
  - rewrite String.eqb_neq. split; [congruence|]. intros H E. apply H. congruence.
  - split; [discriminate|reflexivity].
Qed.

Lemma signal_cancel key :
  signal key = Cancel <->
  name key <> Some "KEY_LEFT"%string /\ name key <> Some "KEY_RIGHT"%string /\
  (text key = "q"%string \/ text key = "Q"%string).
Proof.
  rewrite <- !name_is_false, <- lower_is_q, <- String.eqb_eq. unfold signal.
  destruct (name_is key "KEY_LEFT"); [split; [discriminate|intros (H & _); discriminate]|].
  destruct (name_is key "KEY_RIGHT");
    [split; [discriminate|intros (_ & H & _); discriminate]|].
  destruct (lower (text key) =? "q")%string.
  - split; auto.
  - split; [discriminate|intros (_ & _ & H); discriminate].
Qed.

(** X6: a keystroke makes [input_handler] quit exactly when it is not named
    as one of the two arrows and its text is [q] or [Q]. *)
Theorem quit_key_either_case key w :
  (exists w', await_choice [key] w = Raised (SystemExit None) w') <->
  name key <> Some "KEY_LEFT"%string /\ name key <> Some "KEY_RIGHT"%string /\
  (text key = "q"%string \/ text key = "Q"%string).
Proof.
  rewrite <- signal_cancel, (await_choice_cons operator). unfold respond.
  destruct (signal key); simpl; split;
    try discriminate; try (intros (w' & H); discriminate H); eauto.
Qed.

End Screen.

(** * Further properties of typed key sequences *)

Section TypedAhead.

Context {RNG : Type}.
Variable shuffle : list Item -> RNG -> list Item * RNG.

Local Notation World := (World RNG).
Local Notation written := (written RNG scripted).
Local Notation await_choice := (await_choice RNG scripted).
Local Notation input_handler := (input_handler RNG scripted).
Local Notation merge_loop := (merge_loop RNG scripted).
Local Notation random_shuffle := (random_shuffle RNG shuffle).
Local Notation head_to_head_sorter := (head_to_head_sorter RNG shuffle scripted).
Local Notation respond := (respond RNG scripted).

Lemma scripted_await pre : forall key post w,
  Forall (fun key => signal key = Ignored) pre ->
  signal key <> Ignored ->
  await_choice (pre ++ key :: post) w = respond key (with_keys post w).
Proof.
  induction pre as [|k pre IH]; intros key post w Hpre Hkey.
  - simpl app. rewrite (await_choice_cons scripted).
    destruct (signal key); congruence.
  - inversion Hpre as [|? ? Hk Hpre']; subst. simpl app.
    rewrite (await_choice_cons scripted), Hk, (IH key post _ Hpre' Hkey).
    reflexivity.
Qed.

Lemma input_handler_typed i j w pre key post :
  keys w = pre ++ key :: post ->
  Forall (fun key => signal key = Ignored) pre ->
  signal key <> Ignored ->
  input_handler i j w =
  respond key (with_keys post (written (prompt_text i j) w)).
Proof.
  intros Hk Hpre Hkey. rewrite (input_handler_unfold scripted).
  change (keys (written (prompt_text i j) w)) with (keys w). rewrite Hk.
  apply scripted_await; assumption.
Qed.

(** X5: with keys typed ahead, [input_handler] drops the unrecognized ones
    in front, takes the first arrow or [q], and leaves every key after it for
    the next prompt; the screen gets the prompt and the echo of that key. *)
Theorem input_handler_type_ahead i j w pre key post :
  keys w = pre ++ key :: post ->
  Forall (fun key => signal key = Ignored) pre ->
  signal key <> Ignored ->
  keys (outcome_world (input_handler i j w)) = post /\
  stdout (outcome_world (input_handler i j w)) =
  stdout w ++ [prompt_text i j; (echo key ++ newline)%string] /\
  stdin (outcome_world (input_handler i j w)) = stdin w /\
  files (outcome_world (input_handler i j w)) = files w.
Proof.
  intros Hk Hpre Hkey. rewrite (input_handler_typed i j w pre key post Hk Hpre Hkey).
  unfold respond, echo.
  destruct (signal key); try congruence; simpl; rewrite <- app_assoc; auto.
Qed.

Lemma filter_decides_ignored pre :
  Forall (fun key => signal key = Ignored) pre -> filter decides pre = [].
Proof.
  induction 1 as [|k pre Hk Hpre IH]; simpl; [reflexivity|].
  unfold decides at 1. rewrite Hk. exact IH.
Qed.

Lemma reads_in_order_ret {A} (a : A) : reads_in_order (ret RNG a).
Proof.
  intros w b w' E. inversion E; subst. exists []. simpl.
  split; [reflexivity|]. split; [lia|constructor].
Qed.

Lemma reads_in_order_raise {A} e : reads_in_order (@raise RNG A e).
Proof. intros w b w' E. discriminate. Qed.

Lemma reads_in_order_shuffle items : reads_in_order (random_shuffle items).
Proof.
  intros w b w' E. unfold random_shuffle in E.
  destruct (shuffle items (rng w)). inversion E; subst.
  exists []. simpl. split; [reflexivity|]. split; [lia|constructor].
Qed.

Lemma reads_in_order_bind {A B} (c : M RNG A) (k : A -> M RNG B) :
  reads_in_order c -> (forall a, reads_in_order (k a)) ->
  reads_in_order (bind RNG c k).
Proof.
  intros Hc Hk w b w' E. unfold bind in E.
  destruct (c w) as [a w1| | |] eqn:Ec; try discriminate.
  destruct (Hc w a w1 Ec) as (u1 & K1 & O1 & Q1).
  destruct (Hk a w1 b w' E) as (u2 & K2 & O2 & Q2).
  exists (u1 ++ u2). rewrite K1, K2, O2, O1, filter_app, length_app, app_assoc.
  split; [reflexivity|]. split; [lia|]. apply Forall_app. auto.
Qed.

Lemma reads_in_order_input_handler i j : reads_in_order (input_handler i j).
Proof.
  intros w c w' E.
  destruct (await_choice_first scripted (keys w) (written (prompt_text i j) w) eq_refl)
    as [[_ Hb]|(pre & key & post & Hk & Hpre & Hkey & _)].
  - rewrite (input_handler_unfold scripted) in E.
    change (keys (written (prompt_text i j) w)) with (keys w) in E.
    rewrite Hb in E. discriminate.
  - rewrite (input_handler_typed i j w pre key post Hk Hpre Hkey) in E.
    exists (pre ++ [key]). rewrite filter_app, (filter_decides_ignored pre Hpre).
    assert (Hq : signal key <> Cancel -> Forall (fun k => signal k <> Cancel) (pre ++ [key])).
    { intros Hc. apply Forall_app. split.
      - revert Hpre. apply Forall_impl. intros k ->. discriminate.
      - constructor; [exact Hc|constructor]. }
    unfold respond in E. unfold decides. simpl filter.
    destruct (signal key) eqn:Hs; try discriminate; inversion E; subst.
    + simpl. rewrite Hk, <- !app_assoc, !length_app. simpl.
      split; [reflexivity|]. split; [lia|]. apply Hq. discriminate.
    + simpl. rewrite Hk, <- !app_assoc, !length_app. simpl.
      split; [reflexivity|]. split; [lia|]. apply Hq. discriminate.
Qed.

Lemma reads_in_order_merge_loop budget left right : forall i j result,
  reads_in_order (merge_loop budget left right i j result).
Proof.
  induction budget as [|budget IH]; intros i j result.
  - intros w b w' E. discriminate.
  - simpl. destruct ((i <? length left) && (j <? length right)).
    + apply reads_in_order_bind; [apply reads_in_order_input_handler|].
      intros choice. destruct (choice =? "left")%string; [apply IH|].
      destruct (choice =? "right")%string; apply IH.
    + apply reads_in_order_ret.
Qed.

Lemma reads_in_order_sorter limit : forall items,
  reads_in_order (head_to_head_sorter limit items).
Proof.
  induction limit as [|limit IH]; intros items.
  - apply reads_in_order_raise.
  - simpl. destruct (length items =? 1); [apply reads_in_order_ret|].
    apply reads_in_order_bind; [apply reads_in_order_shuffle|]. intros shuffled.
    apply reads_in_order_bind; [apply IH|]. intros lhs.
    apply reads_in_order_bind; [apply IH|]. intros rhs.
    apply reads_in_order_merge_loop.
Qed.

(** X7: a sort that returns on a typed key sequence has read the keys in
    the order they were typed, up to some point, and left the rest unread;
    among the keys read, the arrows are exactly as many as the comparisons
    made, and no [q] is among them. *)
Theorem head_to_head_sorter_reads_in_order limit items w xs w' :
  head_to_head_sorter limit items w = Returned xs w' ->
  exists used,
    keys w = used ++ keys w' /\
    comparisons w w' = length (filter decides used) /\
    Forall (fun key => signal key <> Cancel) used.
Proof.
  intros E. destruct (reads_in_order_sorter limit items w xs w' E) as (used & K & O & Q).
  exists used. split; [exact K|]. split; [|exact Q].
  unfold comparisons. rewrite O.
  replace (length (stdout w) + 2 * length (filter decides used) - length (stdout w))
    with (length (filter decides used) * 2) by lia.
  apply Nat.div_mul. discriminate.
Qed.

End TypedAhead.

(** * Further properties of the gateway *)

Section Waiting.

Context {RNG : Type}.
Variable shuffle : list Item -> RNG -> list Item * RNG.
Variable operator : Operator.

Local Notation World := (World RNG).
Local Notation input_handler := (input_handler RNG operator).
Local Notation merge_loop := (merge_loop RNG operator).
Local Notation random_shuffle := (random_shuffle RNG shuffle).
Local Notation head_to_head_sorter := (head_to_head_sorter RNG shuffle operator).

(** X11: [input_handler] writes its prompt once, however many keys it
    skips, and then the echo of the key that ends the call; while it waits
    only the prompt is on the screen. *)
Theorem input_handler_prompts_once i j w :
  match input_handler i j w with
  | Returned choice w' =>
      (choice = "left"%string /\
       stdout w' = stdout w ++ [prompt_text i j; ("←" ++ newline)%string]) \/
      (choice = "right"%string /\
       stdout w' = stdout w ++ [prompt_text i j; ("→" ++ newline)%string])
  | Raised e w' =>
      e = SystemExit None /\
      stdout w' = stdout w ++ [prompt_text i j; ("q" ++ newline)%string]
  | Blocked w' => stdout w' = stdout w ++ [prompt_text i j]
  | Unfinished _ => False
  end.
Proof.
  destruct (input_handler_handled operator i j w)
    as [w' (Ho & _)|w' (Ho & _)|w' (Ho & _)|w' (Ho & _) _]; auto.
Qed.

Lemma waits_at_prompt_ret {A} (a : A) : waits_at_prompt (ret RNG a).
Proof. intros w wb E. discriminate. Qed.

Lemma waits_at_prompt_raise {A} e : waits_at_prompt (@raise RNG A e).
Proof. intros w wb E. discriminate. Qed.

Lemma waits_at_prompt_shuffle items : waits_at_prompt (random_shuffle items).
Proof.
  intros w wb E. unfold random_shuffle in E.
  destruct (shuffle items (rng w)). discriminate.
Qed.

Lemma waits_at_prompt_bind {A B} (c : M RNG A) (k : A -> M RNG B) :
  waits_at_prompt c -> (forall a, waits_at_prompt (k a)) ->
  waits_at_prompt (bind RNG c k).
Proof.
  intros Hc Hk w wb E. unfold bind in E.
  destruct (c w) as [a w1|e w1|w1|w1] eqn:Ec; try discriminate.
  - exact (Hk a w1 wb E).
  - inversion E; subst. exact (Hc w wb Ec).
Qed.

Lemma waits_at_prompt_input_handler i j : waits_at_prompt (input_handler i j).
Proof.
  intros w wb E. pose proof (input_handler_handled operator i j w) as H.
  rewrite E in H. inversion H as [| | |? (Ho & _) Hk]; subst.
  split; [exact Hk|]. exists (stdout w), i, j. exact Ho.
Qed.

Lemma waits_at_prompt_merge_loop budget left right : forall i j result,
  waits_at_prompt (merge_loop budget left right i j result).
Proof.
  induction budget as [|budget IH]; intros i j result.
  - intros w wb E. discriminate.
  - simpl. destruct ((i <? length left) && (j <? length right)).
    + apply waits_at_prompt_bind; [apply waits_at_prompt_input_handler|].
      intros choice. destruct (choice =? "left")%string; [apply IH|].
      destruct (choice =? "right")%string; apply IH.
    + apply waits_at_prompt_ret.
Qed.

Lemma waits_at_prompt_sorter limit : forall items,
  waits_at_prompt (head_to_head_sorter limit items).
Proof.
  induction limit as [|limit IH]; intros items.
  - apply waits_at_prompt_raise.
  - simpl. destruct (length items =? 1); [apply waits_at_prompt_ret|].
    apply waits_at_prompt_bind; [apply waits_at_prompt_shuffle|]. intros shuffled.
    apply waits_at_prompt_bind; [apply IH|]. intros lhs.
    apply waits_at_prompt_bind; [apply IH|]. intros rhs.
    apply waits_at_prompt_merge_loop.
Qed.

(** X12: the sorter waits nowhere but in [input_handler]: when a sort is
    left waiting, no key is pending and the last thing on the screen is the
    prompt of the comparison it waits at. *)
Theorem head_to_head_sorter_waits_at_prompt limit items w wb :
  head_to_head_sorter limit items w = Blocked wb ->
  keys wb = [] /\ exists shown i j, stdout wb = shown ++ [prompt_text i j].
Proof. apply waits_at_prompt_sorter. Qed.

End Waiting.


(** * The further properties on sample runs *)

(** ['a', 'c'] and ['b'] with a left and a right arrow. *)
Lemma merge_with_preference_interleaves_witness :
  (exists w',
      merge_with_preference nat scripted ["a"; "c"]%string ["b"]%string
        (fresh [left_arrow; right_arrow]) = Returned ["a"; "b"; "c"]%string w') /\
  Interleave ["a"; "c"]%string ["b"]%string ["a"; "b"; "c"]%string.
Proof.
  split.
  - eexists. vm_compute. reflexivity.
  - eapply (merge_with_preference_interleaves scripted ["a"; "c"]%string ["b"]%string
              (fresh [left_arrow; right_arrow])).
    vm_compute. reflexivity.
Defined.


(** Three items, [3 <= 2 ^ 2]: between two and six comparisons. *)
Lemma head_to_head_sorter_comparisons_witness :
  length fruit <= 2 ^ 2 /\
  exists xs w',
    head_to_head_sorter nat rotate scripted 3 fruit
      (fresh [left_arrow; right_arrow; letter "x"; left_arrow]) = Returned xs w' /\
    length fruit - 1 <=
    comparisons (fresh [left_arrow; right_arrow; letter "x"; left_arrow]) w' /\
    comparisons (fresh [left_arrow; right_arrow; letter "x"; left_arrow]) w' <=
    length fruit * 2.
Proof.
  assert (Hd : length fruit <= 2 ^ 2) by (simpl; lia).
  split; [exact Hd|].
  eexists. eexists. split; [vm_compute; reflexivity|].
  eapply (head_to_head_sorter_comparisons rotate scripted rotate_permutes 3 2 fruit
            (fresh [left_arrow; right_arrow; letter "x"; left_arrow]));
    [exact Hd|vm_compute; reflexivity].
Defined.

(** The sort of [fruit] left waiting at its second comparison. *)
Lemma head_to_head_sorter_asks_among_witness :
  exists lines,
    stdout (outcome_world (head_to_head_sorter nat rotate scripted 3 fruit
                             (fresh [left_arrow]))) = [] ++ lines /\
    Forall (comparison_among fruit) lines /\
    stdin (outcome_world (head_to_head_sorter nat rotate scripted 3 fruit
                            (fresh [left_arrow]))) = [] /\
    files (outcome_world (head_to_head_sorter nat rotate scripted 3 fruit
                            (fresh [left_arrow]))) = [].
Proof.
  exact (head_to_head_sorter_asks_among rotate scripted rotate_permutes 3 fruit
           (fresh [left_arrow])).
Defined.

(** A stray [x], the right arrow, then [q] and the left arrow typed ahead. *)
Lemma input_handler_type_ahead_witness :
  Forall (fun key => signal key = Ignored) [letter "x"] /\
  signal right_arrow <> Ignored /\
  keys (outcome_world
          (input_handler nat scripted "a" "b"
             (fresh [letter "x"; right_arrow; letter "q"; left_arrow]))) =
  [letter "q"; left_arrow].
Proof.
  assert (Hpre : Forall (fun key => signal key = Ignored) [letter "x"])
    by (repeat constructor).
  assert (Hkey : signal right_arrow <> Ignored) by (vm_compute; discriminate).
  split; [exact Hpre|]. split; [exact Hkey|].
  exact (proj1 (input_handler_type_ahead (RNG := nat) "a"%string "b"%string
                  (fresh [letter "x"; right_arrow; letter "q"; left_arrow])
                  [letter "x"] right_arrow [letter "q"; left_arrow]
                  eq_refl Hpre Hkey)).
Defined.

(** The sort of [fruit] with a stray key among the arrows and one arrow too
    many: four keys are read, three of them arrows, and one is left. *)
Lemma head_to_head_sorter_reads_in_order_witness :
  exists xs w' used,
    head_to_head_sorter nat rotate scripted 3 fruit
      (fresh [left_arrow; right_arrow; letter "x"; left_arrow; right_arrow]) =
    Returned xs w' /\
    [left_arrow; right_arrow; letter "x"; left_arrow; right_arrow] = used ++ keys w' /\
    comparisons (fresh [left_arrow; right_arrow; letter "x"; left_arrow; right_arrow]) w' =
    length (filter decides used).
Proof.
  eexists. eexists.
  assert (E : head_to_head_sorter nat rotate scripted 3 fruit
                (fresh [left_arrow; right_arrow; letter "x"; left_arrow; right_arrow]) =
              Returned ["cherry"; "banana"; "apple"]%string
                       (mkWorld [right_arrow]
                                [prompt_text "cherry" "apple"; ("←" ++ newline)%string;
                                 prompt_text "banana" "cherry"; ("→" ++ newline)%string;
                                 prompt_text "banana" "apple"; ("←" ++ newline)%string]
                                [] [] 2))
    by (vm_compute; reflexivity).
  destruct (head_to_head_sorter_reads_in_order rotate 3 fruit _ _ _ E)
    as (used & K & C & _).
  exists used. split; [exact E|]. split; [exact K|exact C].
Defined.

(** [fruit] sorted with three arrows, then [Y] and the file name out.txt. *)
Lemma main_shows_and_saves_witness :
  exists w' sorted_items,
    main nat rotate scripted 3 fruit
         (mkWorld [left_arrow; right_arrow; left_arrow; letter "Y"] []
                  ["out.txt"%string] [] 0) = Returned tt w' /\
    Permutation fruit sorted_items /\
    files w' = [("out.txt"%string,
                 map (fun item => (item ++ newline)%string) sorted_items)].
Proof.
  eexists.
  assert (E : main nat rotate scripted 3 fruit
                (mkWorld [left_arrow; right_arrow; left_arrow; letter "Y"] []
                         ["out.txt"%string] [] 0) =
              Returned tt
                (outcome_world
                   (main nat rotate scripted 3 fruit
                      (mkWorld [left_arrow; right_arrow; left_arrow; letter "Y"] []
                               ["out.txt"%string] [] 0))))
    by (vm_compute; reflexivity).
  destruct (main_shows_and_saves rotate scripted rotate_permutes 3 fruit _ _ _ E)
    as (sorted_items & asked & Hp & _ & [(_ & Hf & _)|(name & _ & Hf & Hs)]).
  - vm_compute in Hf. discriminate Hf.
  - exists sorted_items. split; [exact E|]. split; [exact Hp|].
    simpl in Hs. inversion Hs; subst. exact Hf.
Defined.


(** The script on an empty file, under the rotating shuffle. *)
Lemma script_empty_file_witness :
  exists w',
    script nat rotate scripted "[enter]" "[exit]" 1000 [] (fresh [left_arrow]) =
    Raised RecursionError w' /\
    stdout w' = ["[enter]"; "[exit]"]%string /\
    exit_status (script nat rotate scripted "[enter]" "[exit]" 1000 []
                        (fresh [left_arrow])) = Some 1%Z.
Proof.
  destruct (script_empty_file rotate scripted "[enter]" "[exit]" rotate_permutes
              1000 (fresh [left_arrow])) as (w' & E & Ho & _ & _ & Hx).
  exists w'. split; [exact E|]. split; [exact Ho|exact Hx].
Defined.

(** The sort of [fruit] after a single left arrow. *)
Lemma head_to_head_sorter_waits_at_prompt_witness :
  head_to_head_sorter nat rotate scripted 3 fruit (fresh [left_arrow]) =
  Blocked (second_comparison []) /\
  keys (second_comparison []) = [] /\
  exists shown i j, stdout (second_comparison []) = shown ++ [prompt_text i j].
Proof.
  split; [reflexivity|].
  exact (head_to_head_sorter_waits_at_prompt rotate scripted 3 fruit
           (fresh [left_arrow]) (second_comparison []) eq_refl).
Defined.
